(** * mjrl: Gaussian MLP policy and the model-accelerated NPG training loop

    A shallow embedding of

    - [mjrl/policies/gaussian_mlp.py] (class [MLP]): the flat parameter
      vector and its two snapshots, the diagonal-Gaussian log-density, the
      likelihood ratio and the mean KL divergence;
    - [mjrl/algos/model_accel/run_experiments/run_npgq.py]: the
      configuration preamble and the outer training loop (path window,
      optional success metric, checkpoints).

    Conventions.

    - A tensor is the flat list of its entries; its shape is fixed by the
      policy's shape table, so [reshape] only checks the number of entries.
    - Tensor objects live in a store indexed by object identity.  A Python
      list of parameters is a list of references into that store, and
      [param.data = t] rebinds the data of one object.
    - The storage functions ([set_param_values], [get_param_values]) are
      generic in the scalar type: they only move, convert ([.float()]) and
      compare ([torch.clamp]) entries.  Module [Binary] instantiates them
      with IEEE-754 values, where the conversion to single precision is the
      round-to-nearest-even of [SpecFloat].
    - The density functions are stated over the real numbers, the
      "real-valued" vectors of the data model: every tensor operation is its
      exact real counterpart and conversions between float formats are the
      identity.  The one partial operation that remains is the mean of an
      empty tensor (0/0, [nan] in torch), which is [None].  A batch is a
      list of rows, and operands are taken to have the shapes the policy
      gives them ([n] rows of [m] entries, vectors of [m] entries), where
      an elementwise operation is [zip_with]; the statements carry these
      shapes as hypotheses.
    - The job script is a function from its state (the script's variables,
      the state of its collaborators, and the trace of what it has done to
      the outside) to an outcome: finished, raised, or caught in a loop
      that does not end. *)

From Stdlib Require Import ZArith Reals Lra Lia.
From Stdlib Require Import SpecFloat.
From stdpp Require Import base option list gmap strings pretty.

Set Default Proof Using "Type".

(** ** Outcomes of statements that may raise *)

Inductive exn :=
  | IndexError
  | ValueError
  | KeyError (key : string)
  | AssertionError
  | ZeroDivisionError
  | CallbackError.

(** A Python statement sequence either completes in a state or raises,
    leaving the state as it was when the exception left. *)
Inductive result (S : Type) :=
  | Ok (s : S)
  | Raise (e : exn) (s : S).
Arguments Ok {S} s.
Arguments Raise {S} e s.

Definition bind {S : Type} (r : result S) (k : S → result S) : result S :=
  match r with
  | Ok s => k s
  | Raise e s => Raise e s
  end.

(** numpy's [a[i:j]] for [0 <= i <= j]: positions past the end are dropped
    silently. *)
Definition slice {A : Type} (a : list A) (i j : nat) : list A :=
  take (j - i) (drop i a).

(** ** The policy's parameter storage *)

Section Params.
Context {T : Type}.

(** [torch.from_numpy(vals).float()]: conversion to single precision. *)
Variable to_float32 : T → T.
(** [x < y] on scalars; on floats it is false as soon as one side is nan. *)
Variable lt : T → T → bool.

(** The tensor objects of a policy, by object identity. *)
Local Abbreviation store := (gmap nat (list T)).

Definition data (σ : store) (param : nat) : list T :=
  default [] (σ !! param).

Record MLP := {
  n : nat;                       (* observation_dim *)
  m : nat;                       (* action_dim *)
  min_log_std : T;
  model : list nat;              (* list(self.model.parameters()) *)
  log_std : nat;
  trainable_params : list nat;
  old_model : list nat;          (* list(self.old_model.parameters()) *)
  old_log_std : nat;
  old_params : list nat;
  log_std_val : list T;
  param_sizes : list nat;
  tensors : store
}.

Definition with_tensors (self : MLP) (σ : store) : MLP :=
  {| n := n self; m := m self; min_log_std := min_log_std self;
     model := model self; log_std := log_std self;
     trainable_params := trainable_params self;
     old_model := old_model self; old_log_std := old_log_std self;
     old_params := old_params self;
     log_std_val := log_std_val self;
     param_sizes := param_sizes self;
     tensors := σ |}.

Definition with_log_std_val (self : MLP) (v : list T) : MLP :=
  {| n := n self; m := m self; min_log_std := min_log_std self;
     model := model self; log_std := log_std self;
     trainable_params := trainable_params self;
     old_model := old_model self; old_log_std := old_log_std self;
     old_params := old_params self;
     log_std_val := v;
     param_sizes := param_sizes self;
     tensors := tensors self |}.

(** [self.d = np.sum(self.param_sizes)] *)
Definition d (self : MLP) : nat := sum_list (param_sizes self).

(** [__init__].  [weights] are the parameter tensors of [self.model] in
    order, as [FCNetwork] built them and after the last layer was scaled
    by 1e-2; [self.log_std] is [init_log_std * ones(m)], and every old
    parameter starts as a clone of the current one.  Objects are numbered
    in creation order: the network's parameters, [log_std], the old
    network's parameters, [old_log_std]. *)
Definition init (n_ m_ : nat) (min_log_std_ init_log_std : T)
    (weights : list (list T)) : MLP :=
  let k := length weights in
  let ls := replicate m_ init_log_std in
  let blocks := weights ++ [ls] in
  {| n := n_; m := m_; min_log_std := min_log_std_;
     model := seq 0 k; log_std := k;
     trainable_params := seq 0 k ++ [k];
     old_model := seq (S k) k; old_log_std := S k + k;
     old_params := seq (S k) k ++ [S k + k];
     log_std_val := ls;
     param_sizes := length <$> blocks;
     tensors := map_seq 0 (blocks ++ blocks) |}.

(** [get_param_values]: the concatenation of the flattened trainable
    parameters (a fresh array). *)
Definition get_param_values (self : MLP) : list T :=
  concat (data (tensors self) <$> trainable_params self).

(** The body of
    [for idx, param in enumerate(params): ...]
    of [set_param_values], from index [idx] and offset [current_idx] on.
    [reshape] raises when the slice has too few entries. *)
Fixpoint assign_params (params : list nat) (idx current_idx : nat)
    (new_params : list T) (sizes : list nat) (σ : store) : result store :=
  match params with
  | [] => Ok σ
  | param :: rest =>
      match sizes !! idx with
      | None => Raise IndexError σ
      | Some sz =>
          let vals := slice new_params current_idx (current_idx + sz) in
          if decide (length vals = sz) then
            assign_params rest (S idx) (current_idx + sz) new_params sizes
              (<[param := to_float32 <$> vals]> σ)
          else Raise ValueError σ
      end
  end.

(** [torch.clamp(t, lo)] on a single-precision tensor with a Python
    number [lo]: the bound is converted to the tensor's type, and an entry
    is replaced when it compares below the bound. *)
Definition clamp (lo : T) (x : T) : T :=
  if lt x (to_float32 lo) then to_float32 lo else x.

(** [params[-1].data = torch.clamp(params[-1], self.min_log_std).data] *)
Definition clamp_last (lo : T) (params : list nat) (σ : store) : result store :=
  match last params with
  | None => Raise IndexError σ
  | Some param => Ok (<[param := clamp lo <$> data σ param]> σ)
  end.

(** The body of [if set_new:]. *)
Definition set_new_params (self : MLP) (new_params : list T) : result MLP :=
  match bind (assign_params (trainable_params self) 0 0 new_params
                (param_sizes self) (tensors self))
             (clamp_last (min_log_std self) (trainable_params self)) with
  | Ok σ =>
      (* self.log_std_val = np.float64(self.log_std.data.cpu().numpy().ravel()) *)
      Ok (with_log_std_val (with_tensors self σ) (data σ (log_std self)))
  | Raise e σ => Raise e (with_tensors self σ)
  end.

(** The body of [if set_old:]. *)
Definition set_old_params (self : MLP) (new_params : list T) : result MLP :=
  match bind (assign_params (old_params self) 0 0 new_params
                (param_sizes self) (tensors self))
             (clamp_last (min_log_std self) (old_params self)) with
  | Ok σ => Ok (with_tensors self σ)
  | Raise e σ => Raise e (with_tensors self σ)
  end.

Definition set_param_values (self : MLP) (new_params : list T)
    (set_new set_old : bool) : result MLP :=
  bind (if set_new then set_new_params self new_params else Ok self)
       (λ self, if set_old then set_old_params self new_params else Ok self).

(** *** Well-formed policies

    What [__init__] establishes and [set_param_values] keeps: the two
    parameter lists end in their log-std tensor, no tensor object occurs
    twice, and the size table records the number of entries of each
    parameter. *)
Record wf (self : MLP) : Prop := {
  wf_trainable : trainable_params self = model self ++ [log_std self];
  wf_old : old_params self = old_model self ++ [old_log_std self];
  wf_nodup : NoDup (trainable_params self ++ old_params self);
  wf_sizes : length <$> (data (tensors self) <$> trainable_params self)
             = param_sizes self;
  wf_old_sizes : length (old_params self) = length (param_sizes self);
  wf_m : length (data (tensors self) (log_std self)) = m self
}.

(** The fields that no method but [__init__] and [to] assigns. *)
Definition same_layout (self self' : MLP) : Prop :=
  n self' = n self ∧ m self' = m self ∧ min_log_std self' = min_log_std self
  ∧ model self' = model self ∧ log_std self' = log_std self
  ∧ trainable_params self' = trainable_params self
  ∧ old_model self' = old_model self ∧ old_log_std self' = old_log_std self
  ∧ old_params self' = old_params self
  ∧ param_sizes self' = param_sizes self.

(** The flat vector of the old snapshot, read like [get_param_values]
    reads the current one. *)
Definition get_old_param_values (self : MLP) : list T :=
  concat (data (tensors self) <$> old_params self).

(** What a pass of [set_param_values] stores for the flat vector [v]:
    every entry converted, the last [m] entries clamped as well. *)
Definition stored (self : MLP) (v : list T) : list T :=
  (to_float32 <$> take (d self - m self) v)
  ++ (clamp (min_log_std self) <$> (to_float32 <$> take (m self) (drop (d self - m self) v))).

(** "max(x, lo)" as the comparison computes it. *)
Definition max_with (lo x : T) : T := if lt x lo then lo else x.

(** A scalar that the conversion to single precision leaves as it is. *)
Definition representable (x : T) : Prop := to_float32 x = x.

End Params.


(** ** IEEE-754 scalars

    Flat vectors handed to [set_param_values] are numpy arrays of doubles;
    torch keeps parameters in single precision.  A scalar is a double in
    canonical form; the single-precision values are those doubles that the
    conversion leaves unchanged. *)

Module Binary.

(** The finite double [m * 2^e]. *)
Definition dbl (m e : Z) : spec_float := binary_normalize 53 1024 m e false.

(** Round to nearest even in binary32. *)
Definition round32 (x : spec_float) : spec_float :=
  match x with
  | S754_finite s m e => binary_round 24 128 s m e
  | _ => x
  end.

(** The (exact) way back to a double. *)
Definition widen (x : spec_float) : spec_float :=
  match x with
  | S754_finite s m e => binary_round 53 1024 s m e
  | _ => x
  end.

Definition to_float32 (x : spec_float) : spec_float := widen (round32 x).

Definition lt : spec_float → spec_float → bool := SFltb.

Definition zero : spec_float := S754_zero false.
Definition half : spec_float := dbl 1 (-1).
Definition minus_three : spec_float := dbl (-3) 0.
Definition minus_five : spec_float := dbl (-5) 0.
(** The double nearest to one tenth, 0x3FB999999999999A. *)
Definition tenth : spec_float := dbl 7205759403792794 (-56).

(** A policy with two weight tensors (of two and one entries), one
    action dimension, [min_log_std = -3] and [init_log_std = 0]. *)
Definition policy0 : MLP :=
  init 2 1 minus_three zero [[half; zero]; [zero]].

Definition v_exact : list spec_float := [half; minus_three; half; minus_five].
Definition v_tenth : list spec_float := [tenth; zero; zero; zero].

End Binary.

(** ** The Gaussian density of the policy

    Over the reals.  A batch is a list of rows.  An elementwise operation
    of two tensors of one shape is [zip_with]; a vector of [m] entries
    combined with a batch of rows of [m] entries is combined with every
    row.  (On other shapes torch broadcasts or raises; the statements
    below are about operands of these shapes.) *)

Section Density.
Open Scope R_scope.

(** The network function of [FCNetwork] (mjrl/utils/fc_network.py, not
    among the sources): from the parameter tensors and one observation to
    one mean action. *)
Variable forward : list (list R) → list R → list R.

(** Modelled from the spec: [model(obs_var)] for the network whose
    parameters are [params], which [FCNetwork.forward] computes; the mean
    of a batch holds "mean(observation)" of each of its observations. *)
Definition apply_model (self : @MLP R) (params : list nat)
    (obs_var : list (list R)) : list (list R) :=
  forward (data (tensors self) <$> params) <$> obs_var.

(** [torch.sum] of a vector. *)
Definition torch_sum (t : list R) : R := foldr Rplus 0 t.

(** [torch.mean] of a vector; [None] is torch's [nan] for the empty one. *)
Definition torch_mean (t : list R) : option R :=
  match t with
  | [] => None
  | _ => Some (torch_sum t / INR (length t))
  end.

(** [mean_LL]: [model] and [log_std] default to the policy's own. *)
Definition mean_LL (self : @MLP R) (observations actions : list (list R))
    (model_arg : option (list nat)) (log_std_arg : option nat)
    : list (list R) * list R :=
  let model := default (model self) model_arg in
  let log_std := data (tensors self) (default (log_std self) log_std_arg) in
  let obs_var := observations in
  let act_var := actions in
  let mean := apply_model self model obs_var in
  let zs := zip_with
              (λ act mu, zip_with Rdiv (zip_with Rminus act mu) (exp <$> log_std))
              act_var mean in
  let LL := (λ z, - 0.5 * torch_sum ((λ x, x ^ 2) <$> z)
                  + - torch_sum log_std
                  + - 0.5 * INR (m self) * ln (2 * PI)) <$> zs in
  (mean, LL).

Definition log_likelihood (self : @MLP R) (observations actions : list (list R))
    (model_arg : option (list nat)) (log_std_arg : option nat) : list R :=
  let '(mean, LL) := mean_LL self observations actions model_arg log_std_arg in
  LL.

(** The list [[LL, mean, log_std]]. *)
Record dist_info := {
  info_LL : list R;
  info_mean : list (list R);
  info_log_std : list R
}.

Definition old_dist_info (self : @MLP R) (observations actions : list (list R))
    : dist_info :=
  let '(mean, LL) :=
    mean_LL self observations actions (Some (old_model self))
      (Some (old_log_std self)) in
  {| info_LL := LL; info_mean := mean;
     info_log_std := data (tensors self) (old_log_std self) |}.

Definition new_dist_info (self : @MLP R) (observations actions : list (list R))
    : dist_info :=
  let '(mean, LL) :=
    mean_LL self observations actions (Some (model self))
      (Some (log_std self)) in
  {| info_LL := LL; info_mean := mean;
     info_log_std := data (tensors self) (log_std self) |}.

Definition likelihood_ratio (new_dist_info old_dist_info : dist_info) : list R :=
  let LL_old := info_LL old_dist_info in
  let LL_new := info_LL new_dist_info in
  let LR := exp <$> zip_with Rminus LL_new LL_old in
  LR.

Definition mean_kl (new_dist_info old_dist_info : dist_info) : option R :=
  let old_log_std := info_log_std old_dist_info in
  let new_log_std := info_log_std new_dist_info in
  let old_std := exp <$> old_log_std in
  let new_std := exp <$> new_log_std in
  let old_mean := info_mean old_dist_info in
  let new_mean := info_mean new_dist_info in
  let Nr := zip_with
              (λ mu_old mu_new,
                 zip_with Rminus
                   (zip_with Rplus
                      ((λ x, x ^ 2) <$> zip_with Rminus mu_old mu_new)
                      ((λ x, x ^ 2) <$> old_std))
                   ((λ x, x ^ 2) <$> new_std))
              old_mean new_mean in
  let Dr := (λ s, 2 * s ^ 2 + 1e-8) <$> new_std in
  let sample_kl :=
    (λ nr, torch_sum
             (zip_with Rminus
                (zip_with Rplus (zip_with Rdiv nr Dr) new_log_std)
                old_log_std)) <$> Nr in
  torch_mean sample_kl.

(** *** The density in the words of the specification

    [LL = -0.5*sum_j z_j^2 - sum_j log_std_j - 0.5*m*log(2*pi)] with
    [z_j = (action_j - mean_j) / exp(log_std_j)], the sums over the [m]
    action coordinates. *)
Definition sum_upto (m : nat) (f : nat → R) : R :=
  foldr (λ j acc, f j + acc) 0 (seq 0 m).

Definition gaussian_log_density (m : nat) (action mean log_std : list R) : R :=
  let z j := (nth j action 0 - nth j mean 0) / exp (nth j log_std 0) in
  - 0.5 * sum_upto m (λ j, z j ^ 2)
  - sum_upto m (λ j, nth j log_std 0)
  - 0.5 * INR m * ln (2 * PI).

(** Rows picked by an index array, [rows[pi]]; an index past the end
    raises ([None]). *)
Definition reorder {A : Type} (pi : list nat) (rows : list A) : option (list A) :=
  mapM (λ i, rows !! i) pi.

End Density.

(** ** A one-weight policy over the reals *)

Module Linear.
Open Scope R_scope.

(** A network without hidden layer or bias: the mean action is the
    single weight times the single observation coordinate. *)
Definition forward (params : list (list R)) (o : list R) : list R :=
  [nth 0 (nth 0 params []) 0 * nth 0 o 0].

(** Weight 1, [min_log_std = -3], [init_log_std = 0]. *)
Definition policy1 : @MLP R := init 1 1 (-3) 0 [[1]].

Definition obs2 : list (list R) := [[0]; [1]].
Definition acts2 : list (list R) := [[0]; [0]].
Definition swap : list nat := [1%nat; 0%nat].

(** A distribution info of a batch of two samples. *)
Definition info2 : dist_info :=
  {| info_LL := [-1; -2]; info_mean := [[0]; [1]]; info_log_std := [0] |}.

(** The distribution info of an empty batch. *)
Definition info0 : dist_info :=
  {| info_LL := []; info_mean := []; info_log_std := [0] |}.

End Linear.

(** ** The job script [run_npgq.py]

    From line 50 on: the command line has been parsed, the output
    directory exists and the config file has been evaluated to the
    dictionary [job_data]. *)

Module Train.
Open Scope Z_scope.

(** *** Configuration: the dictionary read from the config file *)

Inductive pyval :=
  | PNone
  | PBool (b : bool)
  | PInt (z : Z)
  | PStr (s : string)
  | POther (tag : nat).          (* floats, tuples, ... *)

Global Instance pyval_eq_dec : EqDecision pyval.
Proof. solve_decision. Defined.

(** [x == y] for the values above ([True == 1] and [False == 0]). *)
Definition py_eq (x y : pyval) : bool :=
  match x, y with
  | PBool a, PInt z | PInt z, PBool a => bool_decide (z = if a then 1 else 0)
  | _, _ => bool_decide (x = y)
  end.

(** [x in l] *)
Definition py_in (x : pyval) (l : list pyval) : bool :=
  existsb (py_eq x) l.

(** [if key not in job_data.keys(): job_data[key] = v] *)
Definition setdefault (key : string) (v : pyval) (job_data : gmap string pyval)
    : gmap string pyval :=
  match job_data !! key with
  | Some _ => job_data
  | None => <[key := v]> job_data
  end.

(** What the script has done to the world outside, in order. *)
Inductive event :=
  | JsonDump (job_data : gmap string pyval)      (* job_data.json *)
  | MakeEnv (env_name : pyval)                   (* GymEnv(ENV_NAME) *)
  | SampleDataBatch (num_samples base_seed : Z)
  | ReplayStore
  | LogKv (key : string)
  | NewModels (seed : Z)
  | ComputeLoss (i : nat)
  | FitDynamics (i : nat)
  | FitReward (i : nat)
  | NewPolicy
  | TrainStep (inner_step : Z)
  | EvaluatePolicy (num_episodes : Z)
  | AgentTo (device : string)
  | PickleDump (file : string)
  | SaveLog
  | MakeTrainPlots.

Global Instance event_eq_dec : EqDecision event.
Proof. solve_decision. Defined.

(** Lines 51-67: the keys read first, the defaults, the check of
    [start_state] (an [assert], executed as the interpreter does unless
    it is run with [-O]), the dump of the job data.  Returns the
    dictionary the loop reads, [ENV_NAME], [SEED] and the events so
    far. *)
Definition preamble (job_data : gmap string pyval)
    : exn + (gmap string pyval * pyval * pyval * list event) :=
  match job_data !! "env_name" with
  | None => inl (KeyError "env_name")
  | Some ENV_NAME =>
      match job_data !! "seed" with
      | None => inl (KeyError "seed")
      | Some SEED =>
          let job_data := setdefault "eval_rollouts" (PInt 0) job_data in
          let job_data := setdefault "save_freq" (PInt 10) job_data in
          let job_data := setdefault "device" (PStr "cpu") job_data in
          let job_data := setdefault "hvp_frac" (POther 0) job_data in
          let job_data := setdefault "start_state" (PStr "init") job_data in
          let job_data := setdefault "learn_reward" (PBool true) job_data in
          let job_data :=
            setdefault "replay_buffer_size" (PInt 1000000) job_data in
          if py_in (default PNone (job_data !! "start_state"))
               [PStr "init"; PStr "buffer"]
          then
            let dumped := JsonDump job_data in
            let job_data := <["base_seed" := SEED]> (delete "seed" job_data) in
            inr (job_data, ENV_NAME, SEED, [dumped])
          else inl AssertionError
      end
  end.

(** *** The options the training loop reads

    The loop reads [job_data[key]] where it needs a value; the values
    are collected here once, with the types the loop uses them at.  A
    dictionary that lacks one of the keys makes Python raise [KeyError]
    at the first use instead. *)
Record job := {
  SEED : Z;
  num_iter : Z;
  init_samples : Z;
  iter_samples : Z;
  buffer_size_limit : Z;           (* job_data['buffer_size'] *)
  num_models : Z;
  refresh_fit : bool;
  learn_reward : bool;
  refresh_policy : option bool;    (* the key may be absent *)
  inner_steps : Z;
  start_state : pyval;
  eval_rollouts : Z;
  save_freq : Z;
  device : string;
  OUT_DIR : string
}.

Definition truthy (v : pyval) : bool :=
  match v with
  | PNone => false
  | PBool b => b
  | PInt z => negb (z =? 0)
  | PStr s => negb (String.eqb s "")
  | POther _ => true
  end.

Definition get_int (job_data : gmap string pyval) (key : string) : option Z :=
  match job_data !! key with
  | Some (PInt z) => Some z
  | Some (PBool b) => Some (if b then 1 else 0)
  | _ => None
  end.

Definition get_str (job_data : gmap string pyval) (key : string) : option string :=
  match job_data !! key with
  | Some (PStr s) => Some s
  | _ => None
  end.

Definition read_job (out_dir : string) (job_data : gmap string pyval) : option job :=
  seed ← get_int job_data "base_seed";
  num_iter ← get_int job_data "num_iter";
  init_samples ← get_int job_data "init_samples";
  iter_samples ← get_int job_data "iter_samples";
  buffer_size ← get_int job_data "buffer_size";
  num_models ← get_int job_data "num_models";
  refresh_fit ← job_data !! "refresh_fit";
  learn_reward ← job_data !! "learn_reward";
  inner_steps ← get_int job_data "inner_steps";
  start_state ← job_data !! "start_state";
  eval_rollouts ← get_int job_data "eval_rollouts";
  save_freq ← get_int job_data "save_freq";
  device ← get_str job_data "device";
  Some {| SEED := seed; num_iter := num_iter; init_samples := init_samples;
          iter_samples := iter_samples; buffer_size_limit := buffer_size;
          num_models := num_models; refresh_fit := truthy refresh_fit;
          learn_reward := truthy learn_reward;
          refresh_policy := truthy <$> job_data !! "refresh_policy";
          inner_steps := inner_steps; start_state := start_state;
          eval_rollouts := eval_rollouts; save_freq := save_freq;
          device := device; OUT_DIR := out_dir |}.

(** *** Outcomes of the loop *)

(** A phase completes, raises, or enters a loop that never ends; the
    state is the one reached at that point. *)
Inductive outcome (S : Type) :=
  | Finished (s : S)
  | Failed (e : exn) (s : S)
  | Diverged (s : S).
Arguments Finished {S} s.
Arguments Failed {S} e s.
Arguments Diverged {S} s.

Definition andthen {S : Type} (r : outcome S) (k : S → outcome S) : outcome S :=
  match r with
  | Finished s => k s
  | Failed e s => Failed e s
  | Diverged s => Diverged s
  end.

Definition outcome_state {S : Type} (r : outcome S) : S :=
  match r with Finished s | Failed _ s | Diverged s => s end.

(** *** The training loop *)

Section Loop.
Context {Obs Act Rew V W : Type}.

Record path := {
  observations : list Obs;
  actions : list Act;
  rewards : list Rew;
  terminated : bool
}.

(** The collaborators of the loop.  [W] is whatever they keep between
    calls (environment, agent, policy, models, replay buffer, random
    generators).  Apart from [evaluate_success] they are taken to
    return. *)
Variable sample_data_batch : Z → Z → W → list path * W.
Variable replay_store : list path → W → W.
Variable new_models : Z → W → W.
Variable compute_loss : nat → list path → Z → W → W.
Variable fit_dynamics : nat → list path → W → W.
Variable fit_reward : nat → list path → W → W.
Variable new_policy : W → W.
Variable train_step : Z → pyval → list Obs → list path → W → W.
Variable evaluate_policy : Z → W → list path * W.
(** [e.env.env.evaluate_success(paths)]; [None] when the call raises
    (also when the environment has no such method). *)
Variable evaluate_success : list path → option V.

Section Body.
Variable job_data : job.

(** The variables of the script. *)
Record state := {
  paths : list path;
  init_states_buffer : list Obs;
  iter_paths : list path;
  eval_paths : list path;
  world : W;
  trace : list event
}.

Definition emit (evs : list event) (st : state) : state :=
  {| paths := paths st; init_states_buffer := init_states_buffer st;
     iter_paths := iter_paths st; eval_paths := eval_paths st;
     world := world st; trace := trace st ++ evs |}.

Definition call (f : W → W) (st : state) : state :=
  {| paths := paths st; init_states_buffer := init_states_buffer st;
     iter_paths := iter_paths st; eval_paths := eval_paths st;
     world := f (world st); trace := trace st |}.

(** [np.sum([p['observations'].shape[0]-1 for p in paths_list])] *)
Definition buffer_size (paths_list : list path) : Z :=
  foldr Z.add 0 ((λ p, Z.of_nat (length (observations p)) - 1) <$> paths_list).

(** [for p in iter_paths: paths.append(p);
     init_states_buffer.append(p['observations'][0])] *)
Fixpoint append_paths (todo : list path) (st : state) : outcome state :=
  match todo with
  | [] => Finished st
  | p :: rest =>
      let st :=
        {| paths := paths st ++ [p];
           init_states_buffer := init_states_buffer st;
           iter_paths := iter_paths st; eval_paths := eval_paths st;
           world := world st; trace := trace st |} in
      match observations p with
      | [] => Failed IndexError st
      | o :: _ =>
          append_paths rest
            {| paths := paths st;
               init_states_buffer := init_states_buffer st ++ [o];
               iter_paths := iter_paths st; eval_paths := eval_paths st;
               world := world st; trace := trace st |}
      end
  end.

(** [while buffer_size(paths) > job_data['buffer_size']: paths[:1] = []].
    Deleting the first element of an empty list leaves it empty, so an
    empty window that still exceeds the ceiling is never left: [None]. *)
Fixpoint evict (limit : Z) (paths : list path) : option (list path) :=
  if buffer_size paths >? limit then
    match paths with
    | [] => None
    | _ :: rest => evict limit rest
    end
  else Some paths.

(** Lines 112-116, the data-ingestion step: the sampled paths join
    the window, then the window is trimmed. *)
Definition ingest (sampled : list path) (st : state) : outcome state :=
  andthen (append_paths sampled st) (λ st,
    match evict (buffer_size_limit job_data) (paths st) with
    | None => Diverged st
    | Some kept =>
        Finished
          {| paths := kept; init_states_buffer := init_states_buffer st;
             iter_paths := iter_paths st; eval_paths := eval_paths st;
             world := world st; trace := trace st |}
    end).

(** Lines 109-126: sample, ingest, build the arrays, store. *)
Definition collect (outer_iter : Z) (st : state) : outcome state :=
  let samples_to_collect :=
    if outer_iter =? 0 then init_samples job_data else iter_samples job_data in
  let '(sampled, w) :=
    sample_data_batch samples_to_collect (SEED job_data + outer_iter) (world st) in
  let st :=
    {| paths := paths st; init_states_buffer := init_states_buffer st;
       iter_paths := sampled; eval_paths := eval_paths st;
       world := w;
       trace := trace st
                ++ [SampleDataBatch samples_to_collect (SEED job_data + outer_iter)] |} in
  andthen (ingest sampled st) (λ st,
    match paths st with
    | [] => Failed ValueError st     (* np.concatenate([]) *)
    | _ => Finished (emit [ReplayStore] (call (replay_store (paths st)) st))
    end).

(** [try: metric = evaluate_success(paths); logger.log_kv(key, metric)
     except: pass] *)
Definition try_log_success (key : string) (ps : list path) (st : state) : state :=
  match evaluate_success ps with
  | Some metric => emit [LogKv key] st
  | None => st
  end.

(** Lines 128-135. *)
Definition log_rollout (st : state) : outcome state :=
  let st := emit [LogKv "fit_epochs"; LogKv "rollout_score"; LogKv "iter_samples"] st in
  Finished (try_log_success "rollout_metric" (iter_paths st) st).

(** The body of [for i, model in enumerate(models)], lines 143-150. *)
Definition fit_model (samples_to_collect : Z) (i : nat) (st : state) : state :=
  let st := emit [ComputeLoss i]
              (call (compute_loss i (paths st) samples_to_collect) st) in
  let st := emit [FitDynamics i] (call (fit_dynamics i (paths st)) st) in
  let st := emit [LogKv ("dyn_loss_" +:+ pretty i);
                  LogKv ("dyn_loss_gen_" +:+ pretty i)] st in
  if learn_reward job_data then
    emit [FitReward i; LogKv ("rew_loss_" +:+ pretty i)]
      (call (fit_reward i (paths st)) st)
  else st.

(** Lines 137-150. *)
Definition fit_models (outer_iter : Z) (st : state) : outcome state :=
  let samples_to_collect :=
    if outer_iter =? 0 then init_samples job_data else iter_samples job_data in
  let st :=
    if refresh_fit job_data then
      emit [NewModels (SEED job_data + 123 * outer_iter)]
        (call (new_models (SEED job_data + 123 * outer_iter)) st)
    else st in
  Finished (foldl (λ st i, fit_model samples_to_collect i st) st
              (seq 0 (Z.to_nat (num_models job_data)))).

(** Lines 155-162. *)
Definition refresh (st : state) : outcome state :=
  match refresh_policy job_data with
  | Some true => Finished (emit [NewPolicy] (call new_policy st))
  | _ => Finished st
  end.

(** Lines 167-190: the inner NPG steps. *)
Definition npg_updates (st : state) : outcome state :=
  Finished
    (foldl (λ st inner_step,
              emit [TrainStep inner_step]
                (call (train_step inner_step (start_state job_data)
                         (init_states_buffer st) (paths st)) st))
       st (Z.of_nat <$> seq 0 (Z.to_nat (inner_steps job_data)))).

(** Lines 192-204. *)
Definition evaluate (st : state) : outcome state :=
  if eval_rollouts job_data >? 0 then
    let '(evaluated, w) := evaluate_policy (eval_rollouts job_data) (world st) in
    let st :=
      {| paths := paths st; init_states_buffer := init_states_buffer st;
         iter_paths := iter_paths st; eval_paths := evaluated;
         world := w;
         trace := trace st
                  ++ [EvaluatePolicy (eval_rollouts job_data); LogKv "eval_score"] |} in
    Finished (try_log_success "eval_metric" (eval_paths st) st)
  else
    Finished
      {| paths := paths st; init_states_buffer := init_states_buffer st;
         iter_paths := iter_paths st; eval_paths := [];
         world := world st; trace := trace st |}.

(** Lines 207-212. *)
Definition checkpoint (outer_iter : Z) (st : state) : outcome state :=
  if outer_iter >? 0 then
    if save_freq job_data =? 0 then Failed ZeroDivisionError st
    else if outer_iter `mod` save_freq job_data =? 0 then
      Finished
        (emit [AgentTo "cpu";
               PickleDump (OUT_DIR job_data +:+ "/agent_" +:+ pretty outer_iter
                           +:+ ".pickle");
               PickleDump (OUT_DIR job_data +:+ "/policy_" +:+ pretty outer_iter
                           +:+ ".pickle");
               AgentTo (device job_data)] st)
    else Finished st
  else Finished st.

(** Lines 214-221. *)
Definition finish (st : state) : outcome state :=
  Finished (emit [LogKv "iter_time"; SaveLog; MakeTrainPlots] st).

(** The body of [for outer_iter in range(job_data['num_iter'])]. *)
Definition outer_iteration (outer_iter : Z) (st : state) : outcome state :=
  andthen (collect outer_iter st) (λ st,
  andthen (log_rollout st) (λ st,
  andthen (fit_models outer_iter st) (λ st,
  andthen (refresh st) (λ st,
  andthen (npg_updates st) (λ st,
  andthen (evaluate st) (λ st,
  andthen (checkpoint outer_iter st) finish)))))).

Fixpoint iterations (outer_iters : list Z) (st : state) : outcome state :=
  match outer_iters with
  | [] => Finished st
  | outer_iter :: rest =>
      andthen (outer_iteration outer_iter st) (iterations rest)
  end.

(** [range(n)] *)
Definition range (n : Z) : list Z := Z.of_nat <$> seq 0 (Z.to_nat n).

(** Lines 224-225. *)
Definition final_save (st : state) : outcome state :=
  Finished
    (emit [PickleDump (OUT_DIR job_data +:+ "/agent_final.pickle");
           PickleDump (OUT_DIR job_data +:+ "/policy_final.pickle")] st).

(** Lines 100-225. *)
Definition train (st : state) : outcome state :=
  andthen (iterations (range (num_iter job_data)) st) final_save.

End Body.

(** *** The whole script *)

Definition initial (w : W) : state :=
  {| paths := []; init_states_buffer := []; iter_paths := [];
     eval_paths := []; world := w; trace := [] |}.

(** The preamble, the construction of the environment and of the
    agent (line 84 on), then the loop. *)
Definition main (out_dir : string) (config : gmap string pyval) (w : W)
    : outcome state :=
  match preamble config with
  | inl e => Failed e (initial w)
  | inr (job_data, ENV_NAME, seed, evs) =>
      let st := emit (evs ++ [MakeEnv ENV_NAME]) (initial w) in
      match read_job out_dir job_data with
      | None => Failed (KeyError "job_data") st
      | Some job_data => train job_data st
      end
  end.

(** *** Notions used in the statements *)

(** The files pickled, in order. *)
Definition dumps (evs : list event) : list string :=
  omap (λ e, match e with PickleDump file => Some file | _ => None end) evs.

(** The events since the state [st]. *)
Definition events_since (st : state) (r : outcome state) : list event :=
  drop (length (trace st)) (trace (outcome_state r)).

Definition is_metric (e : event) : bool :=
  bool_decide (e = LogKv "rollout_metric" ∨ e = LogKv "eval_metric").

Definition without_metrics (evs : list event) : list event :=
  filter (λ e, is_metric e = false) evs.

Definition is_dump (e : event) : bool :=
  match e with PickleDump _ => true | _ => false end.

(** An event that is neither a pickled file nor a success metric. *)
Definition plain (e : event) : Prop :=
  is_dump e = false ∧ is_metric e = false.

(** The outcome [r] of a phase started in [st] has added events that
    all satisfy [P], and has removed none. *)
Definition emits_only (P : event → Prop) (st : state) (r : outcome state)
    : Prop :=
  ∃ evs, trace (outcome_state r) = trace st ++ evs ∧ Forall P evs.

(** A phase that only adds events satisfying [P], keeps the rollout
    and evaluation paths of the iteration, and does not fail with the
    error of the success callback. *)
Definition carries (P : event → Prop) (st : state) (r : outcome state)
    : Prop :=
  emits_only P st r
  ∧ iter_paths (outcome_state r) = iter_paths st
  ∧ eval_paths (outcome_state r) = eval_paths st
  ∧ ∀ e s, r = Failed e s → e ≠ CallbackError.

(** A sampler whose batches are not empty, have an observation in
    every path, and fit under the ceiling of the path window. *)
Definition good_sampler (job_data : job) : Prop :=
  ∀ num_samples base_seed w,
    let sampled := (sample_data_batch num_samples base_seed w).1 in
    sampled ≠ []
    ∧ Forall (λ p, observations p ≠ []) sampled
    ∧ buffer_size sampled ≤ buffer_size_limit job_data.

(** Two states that differ at most in logged success metrics. *)
Definition sim (st st' : state) : Prop :=
  paths st = paths st' ∧ init_states_buffer st = init_states_buffer st'
  ∧ iter_paths st = iter_paths st' ∧ eval_paths st = eval_paths st'
  ∧ world st = world st'
  ∧ without_metrics (trace st) = without_metrics (trace st').

Definition osim (r r' : outcome state) : Prop :=
  match r, r' with
  | Finished s, Finished s' => sim s s'
  | Failed e s, Failed e' s' => e = e' ∧ sim s s'
  | Diverged s, Diverged s' => sim s s'
  | _, _ => False
  end.

(** The checkpoints of iteration [outer_iter] when it is due. *)
Definition checkpoint_files (job_data : job) (outer_iter : Z) : list string :=
  [OUT_DIR job_data +:+ "/agent_" +:+ pretty outer_iter +:+ ".pickle";
   OUT_DIR job_data +:+ "/policy_" +:+ pretty outer_iter +:+ ".pickle"].

Definition final_files (job_data : job) : list string :=
  [OUT_DIR job_data +:+ "/agent_final.pickle";
   OUT_DIR job_data +:+ "/policy_final.pickle"].

(** The schedule in the words of the specification: a checkpoint at
    the iterations with [i % save_freq == 0], and a final one. *)
Definition schedule_spec (job_data : job) : list string :=
  mjoin ((λ i, if i `mod` save_freq job_data =? 0
               then checkpoint_files job_data i else [])
         <$> range (num_iter job_data))
  ++ final_files job_data.

(** The schedule of the code: the iterations with [i > 0] among them. *)
Definition schedule (job_data : job) : list string :=
  mjoin ((λ i, if (i >? 0) && (i `mod` save_freq job_data =? 0)
               then checkpoint_files job_data i else [])
         <$> range (num_iter job_data))
  ++ final_files job_data.

End Loop.

End Train.

(** ** A small instance of the job script

    One-path batches of two transitions; collaborators that only count
    their calls. *)

Module Toy.
Import Train.
Open Scope Z_scope.

Definition path2 : @path nat nat nat :=
  {| observations := [0; 1; 2]%nat; actions := [0; 0; 0]%nat;
     rewards := [1; 1; 1]%nat; terminated := false |}.

Definition sample_data_batch (num_samples base_seed : Z) (w : nat)
    : list (@path nat nat nat) * nat := ([path2], S w).
Definition replay_store (ps : list (@path nat nat nat)) (w : nat) : nat := S w.
Definition new_models (seed : Z) (w : nat) : nat := S w.
Definition compute_loss (i : nat) (ps : list (@path nat nat nat)) (k : Z)
    (w : nat) : nat := S w.
Definition fit_dynamics (i : nat) (ps : list (@path nat nat nat)) (w : nat)
    : nat := S w.
Definition fit_reward (i : nat) (ps : list (@path nat nat nat)) (w : nat)
    : nat := S w.
Definition new_policy (w : nat) : nat := S w.
Definition train_step (inner_step : Z) (start : pyval) (init : list nat)
    (ps : list (@path nat nat nat)) (w : nat) : nat := S w.
Definition evaluate_policy (num_episodes : Z) (w : nat)
    : list (@path nat nat nat) * nat := ([path2], S w).

(** A callback that always raises, and one that returns a metric. *)
Definition raising (ps : list (@path nat nat nat)) : option nat := None.
Definition scoring (ps : list (@path nat nat nat)) : option nat :=
  Some (length ps).

(** Five iterations, a checkpoint every second one. *)
Definition job5 : job :=
  {| SEED := 500; num_iter := 5; init_samples := 50; iter_samples := 20;
     buffer_size_limit := 3; num_models := 1; refresh_fit := false;
     learn_reward := true; refresh_policy := None; inner_steps := 2;
     start_state := PStr "init"; eval_rollouts := 1; save_freq := 2;
     device := "cpu"; OUT_DIR := "out" |}.

Definition train (es : list (@path nat nat nat) → option nat) (job_data : job)
    : @state nat nat nat nat → outcome (@state nat nat nat nat) :=
  Train.train sample_data_batch replay_store new_models compute_loss
    fit_dynamics fit_reward new_policy train_step evaluate_policy es job_data.

Definition outer_iteration (es : list (@path nat nat nat) → option nat)
    (job_data : job) (outer_iter : Z)
    : @state nat nat nat nat → outcome (@state nat nat nat nat) :=
  Train.outer_iteration sample_data_batch replay_store new_models compute_loss
    fit_dynamics fit_reward new_policy train_step evaluate_policy es job_data
    outer_iter.

Definition main (out_dir : string) (config : gmap string pyval) (w : nat)
    : outcome (@state nat nat nat nat) :=
  Train.main (V := nat) sample_data_batch replay_store new_models compute_loss
    fit_dynamics fit_reward new_policy train_step evaluate_policy raising
    out_dir config w.

(** A configuration with an unknown [start_state], and a complete one. *)
Definition config_random : gmap string pyval :=
  list_to_map [("env_name", PStr "mjrl_point_mass-v0"); ("seed", PInt 500);
               ("start_state", PStr "random")].

Definition config_buffer : gmap string pyval :=
  list_to_map [("env_name", PStr "mjrl_point_mass-v0"); ("seed", PInt 500);
               ("start_state", PStr "buffer"); ("num_iter", PInt 2);
               ("init_samples", PInt 50); ("iter_samples", PInt 20);
               ("buffer_size", PInt 3); ("num_models", PInt 1);
               ("refresh_fit", PBool false); ("inner_steps", PInt 1)].

(** A window of two old paths and a batch of one new path. *)
Definition window : @state nat nat nat nat :=
  {| paths := [path2; path2]; init_states_buffer := [0; 0]%nat;
     iter_paths := [path2]; eval_paths := []; world := 0%nat; trace := [] |}.

End Toy.

(** ** More notions of the parameter storage *)

Section ParamsNotions.
Context {T : Type}.

(** [self.log_std_val], the numpy copy that the sampling functions read,
    holds the entries of [self.log_std]. *)
Definition synced (self : @MLP T) : Prop :=
  log_std_val self = data (tensors self) (log_std self).

End ParamsNotions.

(** ** Sampling an action *)

Section Sampling.
Open Scope R_scope.
Variable forward : list (list R) → list R → list R.

(** The dictionary returned beside the action. *)
Record action_info := {
  act_mean : list R;             (* 'mean' *)
  act_log_std : list R;          (* 'log_std' *)
  act_evaluation : list R        (* 'evaluation' *)
}.

(** [get_action]: the observation becomes a batch of one row
    ([reshape(1, -1)]), the network's output is flattened, and the noise
    is [exp(log_std_val)] times the draw [randn] of
    [np.random.randn(self.m)]. *)
Definition get_action (self : @MLP R) (observation randn : list R)
    : list R * action_info :=
  let o := [observation] in
  let mean := concat (apply_model forward self (model self) o) in
  let noise := zip_with Rmult (exp <$> log_std_val self) randn in
  let action := zip_with Rplus mean noise in
  (action, {| act_mean := mean; act_log_std := log_std_val self;
              act_evaluation := mean |}).

End Sampling.

(** ** The storage functions over the reals: conversions between float
    formats are the identity, the comparison is the order of the reals. *)

Module Real.
Open Scope R_scope.

Definition to_float32 (x : R) : R := x.

Definition lt (x y : R) : bool := if Rlt_dec x y then true else false.

Definition set_param_values : @MLP R → list R → bool → bool → result (@MLP R) :=
  set_param_values to_float32 lt.

(** A flat vector for a policy of two parameters, and a distribution
    info of a batch of two samples. *)
Definition v2 : list R := [2; -5].

Definition info3 : dist_info :=
  {| info_LL := [-2; -1]; info_mean := [[1]; [1]]; info_log_std := [0] |}.

End Real.

(** ** What a run of the job script has done

    Views of the event trace, and the defaults of the preamble as a
    dictionary. *)

Module Run.
Import Train.
Open Scope Z_scope.

(** Lines 56-62: the keys that get a value when the config file has
    none ([hvp_frac] is the float 1.0). *)
Definition defaults : gmap string pyval :=
  list_to_map [("eval_rollouts", PInt 0); ("save_freq", PInt 10);
               ("device", PStr "cpu"); ("hvp_frac", POther 0);
               ("start_state", PStr "init"); ("learn_reward", PBool true);
               ("replay_buffer_size", PInt 1000000)].

(** The events other than entries of the logger. *)
Definition actions (evs : list event) : list event :=
  omap (λ e, match e with LogKv _ => None | _ => Some e end) evs.

(** The batches requested from the sampler: number of samples and base
    seed. *)
Definition sampling (evs : list event) : list (Z * Z) :=
  omap (λ e, match e with
             | SampleDataBatch num_samples base_seed => Some (num_samples, base_seed)
             | _ => None
             end) evs.

(** The evaluation rollouts requested: number of episodes. *)
Definition evaluations (evs : list event) : list Z :=
  omap (λ e, match e with EvaluatePolicy num_episodes => Some num_episodes
                     | _ => None end) evs.

(** The inner NPG steps taken. *)
Definition train_steps (evs : list event) : list Z :=
  omap (λ e, match e with TrainStep inner_step => Some inner_step | _ => None end)
    evs.

(** The dynamics models fitted. *)
Definition fitted (evs : list event) : list nat :=
  omap (λ e, match e with FitDynamics i => Some i | _ => None end) evs.

(** How often the log was saved. *)
Definition saved_logs (evs : list event) : nat :=
  length (omap (λ e, match e with SaveLog => Some () | _ => None end) evs).

(** The moves of the agent between devices ([inl]) and the files
    pickled ([inr]), in order. *)
Definition storage_events (evs : list event) : list (string + string) :=
  omap (λ e, match e with
             | AgentTo device => Some (inl device)
             | PickleDump file => Some (inr file)
             | _ => None
             end) evs.

(** [p['observations'][0]] of the paths that have one. *)
Definition first_observations {Obs Act Rew : Type}
    (ps : list (@path Obs Act Rew)) : list Obs :=
  omap (λ p, head (observations p)) ps.

(** The actions of an outer iteration up to its evaluation rollouts,
    at its checkpoint, and in all when it completes. *)
Definition model_actions (job_data : job) (i : nat) : list event :=
  [ComputeLoss i; FitDynamics i]
  ++ (if learn_reward job_data then [FitReward i] else []).

Definition work_actions (job_data : job) (outer_iter : Z) : list event :=
  [SampleDataBatch
     (if outer_iter =? 0 then init_samples job_data else iter_samples job_data)
     (SEED job_data + outer_iter);
   ReplayStore]
  ++ (if refresh_fit job_data
      then [NewModels (SEED job_data + 123 * outer_iter)] else [])
  ++ mjoin (model_actions job_data <$> seq 0 (Z.to_nat (num_models job_data)))
  ++ match refresh_policy job_data with Some true => [NewPolicy] | _ => [] end
  ++ (TrainStep <$> range (inner_steps job_data))
  ++ (if eval_rollouts job_data >? 0
      then [EvaluatePolicy (eval_rollouts job_data)] else []).

Definition checkpoint_actions (job_data : job) (outer_iter : Z) : list event :=
  if (outer_iter >? 0) && (outer_iter `mod` save_freq job_data =? 0)
  then [AgentTo "cpu";
        PickleDump (OUT_DIR job_data +:+ "/agent_" +:+ pretty outer_iter
                    +:+ ".pickle");
        PickleDump (OUT_DIR job_data +:+ "/policy_" +:+ pretty outer_iter
                    +:+ ".pickle");
        AgentTo (device job_data)]
  else [].

Definition iteration_actions (job_data : job) (outer_iter : Z) : list event :=
  work_actions job_data outer_iter
  ++ checkpoint_actions job_data outer_iter
  ++ [SaveLog; MakeTrainPlots].

End Run.

(** ** More runs of the small instance *)

Module ToyRuns.
Import Train Toy.
Open Scope Z_scope.

(** A path without observations, and a sampler that returns it between
    two good ones. *)
Definition path0 : @path nat nat nat :=
  {| observations := []; actions := []; rewards := []; terminated := false |}.

Definition sample_with_empty (num_samples base_seed : Z) (w : nat)
    : list (@path nat nat nat) * nat := ([path2; path0; path2], S w).

(** [job5] with a negative ceiling, with a ceiling of one transition,
    and with [save_freq = 0]. *)
Definition with_limit (limit : Z) (job_data : job) : job :=
  {| SEED := SEED job_data; num_iter := num_iter job_data;
     init_samples := init_samples job_data;
     iter_samples := iter_samples job_data;
     buffer_size_limit := limit; num_models := num_models job_data;
     refresh_fit := refresh_fit job_data; learn_reward := learn_reward job_data;
     refresh_policy := refresh_policy job_data;
     inner_steps := inner_steps job_data; start_state := start_state job_data;
     eval_rollouts := eval_rollouts job_data; save_freq := save_freq job_data;
     device := device job_data; OUT_DIR := OUT_DIR job_data |}.

Definition job_negative : job := with_limit (-1) job5.
Definition job_tight : job := with_limit 1 job5.

Definition job_nosave : job :=
  {| SEED := 500; num_iter := 5; init_samples := 50; iter_samples := 20;
     buffer_size_limit := 3; num_models := 1; refresh_fit := false;
     learn_reward := true; refresh_policy := None; inner_steps := 2;
     start_state := PStr "init"; eval_rollouts := 1; save_freq := 0;
     device := "cpu"; OUT_DIR := "out" |}.

Definition collect (job_data : job) (outer_iter : Z)
    : @state nat nat nat nat → outcome (@state nat nat nat nat) :=
  Train.collect Toy.sample_data_batch Toy.replay_store job_data outer_iter.

(** The state at the start of the loop, after the first collection and
    after the whole run of [job5]. *)
Definition start : @state nat nat nat nat := initial 0%nat.

Definition collected : @state nat nat nat nat :=
  outcome_state (collect job5 0 start).

Definition completed : @state nat nat nat nat :=
  outcome_state (Toy.train raising job5 start).

(** A config file without [env_name]. *)
Definition config_empty : gmap string pyval := ∅.

End ToyRuns.

(** ** Storage lemmas *)

Section ParamsFacts.
Context {T : Type}.
Variable to_float32 : T → T.
Variable lt : T → T → bool.

Local Abbreviation store := (gmap nat (list T)).
Local Abbreviation MLP := (@MLP T).
Local Abbreviation set_param_values := (set_param_values to_float32 lt).
Local Abbreviation set_new_params := (set_new_params to_float32 lt).
Local Abbreviation set_old_params := (set_old_params to_float32 lt).
Local Abbreviation assign_params := (assign_params to_float32).
Local Abbreviation clamp := (clamp to_float32 lt).
Local Abbreviation clamp_last := (clamp_last to_float32 lt).
Local Abbreviation representable := (representable to_float32).

Lemma concat_reshape (sizes : list nat) (v : list T) :
  concat (reshape sizes v) = take (sum_list sizes) v.
Proof.
  revert v. induction sizes as [|sz sizes IH]; intros v; simpl.
  - by rewrite take_0.
  - rewrite IH. rewrite <- (take_drop sz (take (sz + sum_list sizes) v)) at 1.
    rewrite take_take, Nat.min_l by lia.
    by rewrite skipn_firstn_comm, Nat.add_comm, Nat.add_sub.
Qed.

Lemma fmap_length_reshape (sizes : list nat) (v : list T) :
  sum_list sizes ≤ length v → length <$> reshape sizes v = sizes.
Proof.
  revert v. induction sizes as [|sz sizes IH]; intros v Hv; simpl in *; [done|].
  rewrite length_take, Nat.min_l by lia. f_equal.
  apply IH. rewrite length_drop. lia.
Qed.

Lemma data_insert (σ : store) (p q : nat) (x : list T) :
  data (<[p := x]> σ) q = if decide (p = q) then x else data σ q.
Proof. unfold data. rewrite lookup_insert. by case_decide. Qed.

Lemma data_fmap_ext (σ σ' : store) (params : list nat) :
  (∀ q, q ∈ params → σ' !! q = σ !! q) →
  data σ' <$> params = data σ <$> params.
Proof.
  intros H. apply list_fmap_ext. intros i q Hq. unfold data.
  rewrite H; [done|]. by eapply list_elem_of_lookup_2.
Qed.

(** The assignment loop on a vector that is long enough. *)
Lemma assign_params_spec (sizes : list nat) (v : list T) (params : list nat) :
  ∀ idx cur σ,
    NoDup params →
    idx + length params = length sizes →
    cur + sum_list (drop idx sizes) ≤ length v →
    ∃ σ', assign_params params idx cur v sizes σ = Ok σ'
          ∧ data σ' <$> params
            = fmap to_float32 <$> reshape (drop idx sizes) (drop cur v)
          ∧ ∀ q, q ∉ params → σ' !! q = σ !! q.
Proof.
  induction params as [|p rest IH]; intros idx cur σ Hnd Hlen Hv.
  - exists σ. split; [done|]. split; [|done].
    simpl in Hlen. rewrite drop_ge by lia. done.
  - apply NoDup_cons in Hnd as [Hp Hnd]. rewrite length_cons in Hlen.
    destruct (lookup_lt_is_Some_2 sizes idx) as [sz Hsz]; [lia|].
    cbn [assign_params]. rewrite Hsz.
    erewrite drop_S in Hv |- * by done. simpl in Hv.
    assert (Hsl : slice v cur (cur + sz) = take sz (drop cur v)).
    { unfold slice. f_equal. lia. }
    rewrite Hsl. rewrite decide_True; last first.
    { rewrite length_take, length_drop. lia. }
    destruct (IH (S idx) (cur + sz) (<[p := to_float32 <$> take sz (drop cur v)]> σ))
      as (σ' & Hrun & Hdata & Hframe); [done|lia|lia|].
    exists σ'. split; [done|]. split.
    + cbn [reshape]. rewrite !fmap_cons. f_equal.
      * unfold data. rewrite Hframe by done. by rewrite lookup_insert_eq.
      * rewrite Hdata. by rewrite drop_drop.
    + intros q Hq. apply not_elem_of_cons in Hq as [Hqp Hq].
      rewrite Hframe by done. by rewrite lookup_insert_ne.
Qed.

Lemma reshape_app (fs gs : list nat) (v : list T) :
  reshape (fs ++ gs) v = reshape fs v ++ reshape gs (drop (sum_list fs) v).
Proof.
  revert v. induction fs as [|sz fs IH]; intros v; simpl; [done|].
  f_equal. rewrite IH. by rewrite drop_drop.
Qed.

(** One pass of [set_param_values] over a parameter list: the assignment
    loop followed by the clamp of the last parameter. *)
Lemma assign_clamp_spec (lo : T) (v : list T) (front : list nat) (lastp : nat)
    (fs : list nat) (sl : nat) (σ : store) :
  NoDup (front ++ [lastp]) →
  length front = length fs →
  sum_list fs + sl ≤ length v →
  ∃ σ', bind (assign_params (front ++ [lastp]) 0 0 v (fs ++ [sl]) σ)
             (clamp_last lo (front ++ [lastp])) = Ok σ'
        ∧ data σ' <$> front = fmap to_float32 <$> reshape fs v
        ∧ data σ' lastp
          = clamp lo <$> (to_float32 <$> take sl (drop (sum_list fs) v))
        ∧ ∀ q, q ∉ front ++ [lastp] → σ' !! q = σ !! q.
Proof.
  intros Hnd Hlen Hv.
  destruct (assign_params_spec (fs ++ [sl]) v (front ++ [lastp]) 0 0 σ)
    as (σ1 & Hrun & Hdata & Hframe); [done| | |].
  { rewrite !length_app. simpl. lia. }
  { rewrite drop_0, sum_list_with_app. simpl. lia. }
  rewrite Hrun. simpl. unfold clamp_last. rewrite last_snoc.
  rewrite !drop_0, reshape_app, !fmap_app in Hdata.
  apply app_inj_1 in Hdata as [Hfront Hlast]; last first.
  { rewrite !length_fmap, length_reshape. done. }
  simpl in Hlast. injection Hlast as Hlast.
  apply NoDup_app in Hnd as (_ & Hdisj & _).
  eexists. split; [done|]. split; [|split].
  - rewrite <- Hfront. apply data_fmap_ext. intros q Hq.
    rewrite lookup_insert_ne; [done|]. intros ->.
    apply (Hdisj _ Hq). by apply list_elem_of_singleton.
  - rewrite data_insert, decide_True by done. by rewrite Hlast.
  - intros q Hq. rewrite lookup_insert_ne, Hframe; [done|done|].
    intros ->. apply Hq. apply elem_of_app. right. by apply list_elem_of_singleton.
Qed.

Local Abbreviation stored := (stored to_float32 lt).

Lemma wf_param_sizes (self : MLP) :
  wf self →
  param_sizes self
  = (length <$> (data (tensors self) <$> model self)) ++ [m self].
Proof.
  intros Hwf. rewrite <- (wf_sizes _ Hwf), (wf_trainable _ Hwf), !fmap_app.
  simpl. by rewrite (wf_m _ Hwf).
Qed.

Lemma wf_d (self : MLP) :
  wf self →
  d self = sum_list (length <$> (data (tensors self) <$> model self)) + m self.
Proof.
  intros Hwf. unfold d. rewrite (wf_param_sizes _ Hwf), sum_list_with_app.
  simpl. lia.
Qed.

Lemma wf_disjoint (self : MLP) (q : nat) :
  wf self → q ∈ trainable_params self → q ∈ old_params self → False.
Proof.
  intros Hwf H1 H2. pose proof (wf_nodup _ Hwf) as Hnd.
  apply NoDup_app in Hnd as (_ & Hdisj & _). by apply (Hdisj q).
Qed.

Lemma wf_nodup_trainable (self : MLP) : wf self → NoDup (trainable_params self).
Proof. intros Hwf. by destruct (proj1 (NoDup_app _ _) (wf_nodup _ Hwf)) as (? & _). Qed.

Lemma wf_nodup_old (self : MLP) : wf self → NoDup (old_params self).
Proof. intros Hwf. by destruct (proj1 (NoDup_app _ _) (wf_nodup _ Hwf)) as (_ & _ & ?). Qed.

(** A store that keeps the sizes of the trainable parameters keeps the
    policy well formed. *)
Lemma wf_update (self self' : MLP) :
  wf self → same_layout self self' →
  length <$> (data (tensors self') <$> trainable_params self) = param_sizes self →
  wf self'.
Proof.
  intros Hwf (Hn & Hm & Hlo & Hmod & Hls & Htr & Hom & Hols & Hop & Hsz) Hlen.
  split; rewrite ?Htr, ?Hop, ?Hmod, ?Hls, ?Hom, ?Hols, ?Hsz, ?Hm;
    try solve [apply Hwf]; [done|].
  rewrite (wf_param_sizes _ Hwf), (wf_trainable _ Hwf), !fmap_app in Hlen.
  apply app_inj_2 in Hlen as [_ Hlen]; [|done].
  simpl in Hlen. by injection Hlen.
Qed.

Lemma concat_fmap_fmap {A B : Type} (f : A → B) (ls : list (list A)) :
  concat (fmap (M := list) f <$> ls) = f <$> concat ls.
Proof.
  induction ls as [|l ls IH]; [done|].
  rewrite fmap_cons. simpl. by rewrite IH, fmap_app.
Qed.

(** One pass over either parameter list of a well-formed policy. *)
Lemma pass_spec (self : MLP) (params front : list nat) (lastp : nat)
    (σ : store) (v : list T) :
  wf self → d self ≤ length v →
  params = front ++ [lastp] → NoDup params →
  length params = length (param_sizes self) →
  ∃ σ', bind (assign_params params 0 0 v (param_sizes self) σ)
             (clamp_last (min_log_std self) params) = Ok σ'
        ∧ concat (data σ' <$> params) = stored self v
        ∧ length <$> (data σ' <$> params) = param_sizes self
        ∧ ∀ q, q ∉ params → σ' !! q = σ !! q.
Proof.
  intros Hwf Hv -> Hnd Hlen.
  pose proof (wf_d _ Hwf) as Hd.
  rewrite (wf_param_sizes _ Hwf) in Hlen |- *.
  set (fs := length <$> (data (tensors self) <$> model self)) in *.
  rewrite !length_app in Hlen. simpl in Hlen.
  destruct (assign_clamp_spec (min_log_std self) v front lastp fs (m self) σ)
    as (σ' & Hrun & Hfront & Hlast & Hframe); [done|lia|lia|].
  exists σ'. split; [done|]. split; [|split; [|done]].
  - rewrite fmap_app, concat_app, Hfront. simpl. rewrite Hlast, app_nil_r.
    rewrite concat_fmap_fmap, concat_reshape. unfold stored.
    by replace (d self - m self) with (sum_list fs) by lia.
  - rewrite !fmap_app, Hfront. simpl. rewrite Hlast. f_equal.
    + rewrite <- list_fmap_compose.
      rewrite (list_fmap_ext _ length (reshape fs v)).
      * apply fmap_length_reshape. lia.
      * intros i x _. simpl. by rewrite length_fmap.
    + rewrite !length_fmap, length_take, length_drop. f_equal. lia.
Qed.

Lemma same_layout_refl (self : MLP) : same_layout self self.
Proof. by repeat split. Qed.

Lemma same_layout_trans (a b c : MLP) :
  same_layout a b → same_layout b c → same_layout a c.
Proof. unfold same_layout. intros H1 H2. intuition congruence. Qed.

Lemma same_layout_stored (self self' : MLP) (v : list T) :
  same_layout self self' → stored self' v = stored self v.
Proof.
  intros (_ & Hm & Hlo & _ & _ & _ & _ & _ & _ & Hsz).
  unfold stored, d. by rewrite Hm, Hlo, Hsz.
Qed.

Lemma set_new_params_spec (self : MLP) (v : list T) :
  wf self → d self ≤ length v →
  ∃ self', set_new_params self v = Ok self'
           ∧ same_layout self self' ∧ wf self'
           ∧ get_param_values self' = stored self v
           ∧ log_std_val self' = data (tensors self') (log_std self')
           ∧ ∀ q, q ∉ trainable_params self →
                  tensors self' !! q = tensors self !! q.
Proof.
  intros Hwf Hv.
  destruct (pass_spec self (trainable_params self) (model self) (log_std self)
              (tensors self) v)
    as (σ' & Hrun & Hget & Hlen & Hframe);
    [done|done|apply Hwf|by apply wf_nodup_trainable| |].
  { rewrite <- (wf_sizes _ Hwf). by rewrite !length_fmap. }
  unfold set_new_params. rewrite Hrun. eexists. split; [done|].
  split; [by repeat split|]. split; [|done].
  eapply wf_update; [done|by repeat split|done].
Qed.

Lemma set_old_params_spec (self : MLP) (v : list T) :
  wf self → d self ≤ length v →
  ∃ self', set_old_params self v = Ok self'
           ∧ same_layout self self' ∧ wf self'
           ∧ get_old_param_values self' = stored self v
           ∧ log_std_val self' = log_std_val self
           ∧ ∀ q, q ∉ old_params self →
                  tensors self' !! q = tensors self !! q.
Proof.
  intros Hwf Hv.
  destruct (pass_spec self (old_params self) (old_model self) (old_log_std self)
              (tensors self) v)
    as (σ' & Hrun & Hget & Hlen & Hframe);
    [done|done|apply Hwf|by apply wf_nodup_old|apply Hwf|].
  unfold set_old_params. rewrite Hrun. eexists. split; [done|].
  split; [by repeat split|]. split; [|done].
  eapply wf_update; [done|by repeat split|]. simpl.
  rewrite <- (wf_sizes _ Hwf). f_equal. apply data_fmap_ext.
  intros q Hq. apply Hframe. intros Hq'. by eapply wf_disjoint.
Qed.

Local Abbreviation max_with := (max_with lt).

Lemma max_with_idemp (lo x : T) : max_with lo (max_with lo x) = max_with lo x.
Proof.
  unfold max_with. destruct (lt x lo) eqn:Hx; [|by rewrite Hx].
  by destruct (lt lo lo).
Qed.

Lemma max_with_representable (lo x : T) :
  representable lo → representable x → representable (max_with lo x).
Proof. unfold max_with. by destruct (lt x lo). Qed.

Lemma fmap_representable (l : list T) :
  Forall representable l → to_float32 <$> l = l.
Proof.
  intros H. rewrite <- (list_fmap_id l) at 2.
  apply Forall_fmap_ext. eapply Forall_impl; [exact H|]. by intros x Hx.
Qed.

(** On representable data the stored vector is the input with its last
    [m] entries raised to the floor. *)
Lemma stored_representable (self : MLP) (v : list T) :
  length v = d self →
  Forall representable v → representable (min_log_std self) →
  stored self v
  = take (d self - m self) v
    ++ (max_with (min_log_std self) <$> drop (d self - m self) v).
Proof.
  intros Hlen Hv Hlo. unfold stored.
  rewrite fmap_representable by by apply Forall_take.
  rewrite fmap_representable by by apply Forall_take, Forall_drop.
  rewrite (take_ge (drop (d self - m self) v)) by (rewrite length_drop; lia).
  f_equal. apply list_fmap_ext. intros i x _.
  red in Hlo. unfold clamp, max_with. by rewrite Hlo.
Qed.

Lemma stored_idemp (self : MLP) (v : list T) :
  length v = d self → m self ≤ d self →
  Forall representable v → representable (min_log_std self) →
  stored self (stored self v) = stored self v.
Proof.
  intros Hlen Hm Hv Hlo.
  rewrite (stored_representable self v) by done.
  set (k := d self - m self).
  assert (Hk : length (take k v) = k) by (rewrite length_take; lia).
  rewrite stored_representable; [| |  |done].
  - fold k. rewrite take_app_length' by done.
    rewrite drop_app_length' by done. f_equal.
    rewrite <- list_fmap_compose. apply list_fmap_ext. intros i x _.
    simpl. apply max_with_idemp.
  - rewrite length_app, length_fmap, length_take, length_drop. lia.
  - apply Forall_app. split; [by apply Forall_take|].
    apply Forall_fmap. eapply Forall_impl; [by apply Forall_drop|].
    intros x Hx. simpl. by apply max_with_representable.
Qed.

(** *** The constructor establishes well-formedness *)

Lemma data_map_seq (l1 l2 : list (list T)) :
  data (map_seq 0 (l1 ++ l2)) <$> seq 0 (length l1) = l1.
Proof.
  apply list_eq. intros i. rewrite list_lookup_fmap.
  destruct (decide (i < length l1)) as [Hi|Hi].
  - rewrite lookup_seq_lt by done. simpl. unfold data.
    rewrite lookup_map_seq_0, lookup_app_l by done.
    destruct (lookup_lt_is_Some_2 l1 i Hi) as [x Hx]. by rewrite Hx.
  - rewrite lookup_seq_ge by lia. simpl.
    symmetry. apply lookup_ge_None. lia.
Qed.

Lemma init_wf (n_ m_ : nat) (lo init_log_std : T) (weights : list (list T)) :
  wf (init n_ m_ lo init_log_std weights).
Proof.
  set (k := length weights).
  assert (Hseq : seq 0 k ++ [k] = seq 0 (S k)) by by rewrite seq_S.
  split; simpl; fold k.
  - done.
  - done.
  - replace (seq (S k) k ++ [S (k + k)]) with (seq (0 + S k) (S k))
      by (by rewrite seq_S).
    rewrite Hseq, <- seq_app. apply NoDup_seq.
  - rewrite Hseq. f_equal.
    replace (S k) with (length (weights ++ [replicate m_ init_log_std]))
      by (rewrite length_app; simpl; lia).
    by apply data_map_seq.
  - rewrite length_fmap, !length_app, length_seq. simpl. lia.
  - unfold data. rewrite lookup_map_seq_0, <- !app_assoc.
    rewrite lookup_app_r by done. fold k. rewrite Nat.sub_diag. simpl.
    apply length_replicate.
Qed.

Lemma init_model_data (n_ m_ : nat) (lo init_log_std : T) (weights : list (list T)) :
  let self := init n_ m_ lo init_log_std weights in
  data (tensors self) <$> model self = weights.
Proof. simpl. rewrite <- !app_assoc. apply data_map_seq. Qed.

Lemma init_log_std_data (n_ m_ : nat) (lo init_log_std : T) (weights : list (list T)) :
  let self := init n_ m_ lo init_log_std weights in
  data (tensors self) (log_std self) = replicate m_ init_log_std.
Proof.
  simpl. unfold data. rewrite lookup_map_seq_0, <- !app_assoc.
  rewrite lookup_app_r by done. by rewrite Nat.sub_diag.
Qed.

(** *** Claims about [set_param_values] *)

(** Both passes on a vector that is long enough: the trainable
    parameters then hold the converted vector, its last [m] entries
    clamped. *)
Lemma set_param_values_stored (self : MLP) (v : list T) :
  wf self → d self ≤ length v →
  ∃ self', set_param_values self v true true = Ok self'
           ∧ same_layout self self' ∧ wf self'
           ∧ get_param_values self' = stored self v.
Proof.
  intros Hwf Hv. unfold set_param_values.
  destruct (set_new_params_spec self v) as (p1 & -> & Hl1 & Hwf1 & Hget & _ & _);
    [done|done|].
  destruct (set_old_params_spec p1 v) as (p2 & Hrun & Hl2 & Hwf2 & _ & _ & Hfr);
    [done| |].
  { destruct Hl1 as (_ & _ & _ & _ & _ & _ & _ & _ & _ & Hsz).
    unfold d. rewrite Hsz. by fold (d self). }
  simpl. rewrite Hrun. exists p2. split; [done|].
  split; [by eapply same_layout_trans|]. split; [done|].
  rewrite <- Hget. unfold get_param_values.
  destruct Hl2 as (_ & _ & _ & _ & _ & -> & _). f_equal.
  apply data_fmap_ext. intros q Hq. apply Hfr.
  intros Hq'. by eapply (wf_disjoint p1).
Qed.


(** C10.  For a flat vector [v] of the policy's parameter count,
    [set_param_values(v, set_new=True, set_old=False)] leaves the list of
    old parameters and the data of each of them (the old network's
    parameters and [old_log_std]) as they were, and
    [set_param_values(v, set_new=False, set_old=True)] does the same for
    the trainable parameters (the network's parameters and [log_std]). *)
Theorem set_param_values_frame (self : MLP) (v : list T) :
  wf self → length v = d self →
  (∃ self',
      set_param_values self v true false = Ok self'
      ∧ old_params self' = old_params self
      ∧ (∀ q, q ∈ old_params self →
              data (tensors self') q = data (tensors self) q)
      ∧ get_old_param_values self' = get_old_param_values self)
  ∧ (∃ self',
      set_param_values self v false true = Ok self'
      ∧ trainable_params self' = trainable_params self
      ∧ (∀ q, q ∈ trainable_params self →
              data (tensors self') q = data (tensors self) q)
      ∧ get_param_values self' = get_param_values self).
Proof.
  intros Hwf Hlen. split.
  - destruct (set_new_params_spec self v) as (p & Hrun & Hlay & _ & _ & _ & Hfr);
      [done|lia|].
    exists p. unfold set_param_values. rewrite Hrun. simpl.
    destruct Hlay as (_ & _ & _ & _ & _ & _ & _ & _ & Hop & _).
    assert (Hq : ∀ q, q ∈ old_params self → tensors p !! q = tensors self !! q).
    { intros q Hq. apply Hfr. intros Hq'. by eapply wf_disjoint. }
    split; [done|]. split; [done|]. split.
    + intros q Hq'. unfold data. by rewrite Hq.
    + unfold get_old_param_values. rewrite Hop. f_equal.
      by apply data_fmap_ext.
  - destruct (set_old_params_spec self v) as (p & Hrun & Hlay & _ & _ & _ & Hfr);
      [done|lia|].
    exists p. unfold set_param_values. simpl. rewrite Hrun.
    destruct Hlay as (_ & _ & _ & _ & _ & Htr & _).
    assert (Hq : ∀ q, q ∈ trainable_params self →
                      tensors p !! q = tensors self !! q).
    { intros q Hq. apply Hfr. intros Hq'. by eapply wf_disjoint. }
    split; [done|]. split; [done|]. split.
    + intros q Hq'. unfold data. by rewrite Hq.
    + unfold get_param_values. rewrite Htr. f_equal.
      by apply data_fmap_ext.
Qed.

End ParamsFacts.

(** ** The storage claims on IEEE-754 data *)

Module BinaryFacts.
Import Binary.

Lemma v_exact_representable :
  Forall (representable to_float32) v_exact.
Proof. repeat constructor. Qed.



Lemma set_param_values_frame_witness :
  (∃ self',
      set_param_values to_float32 lt policy0 v_exact true false = Ok self'
      ∧ old_params self' = old_params policy0
      ∧ (∀ q, q ∈ old_params policy0 →
              data (tensors self') q = data (tensors policy0) q)
      ∧ get_old_param_values self' = get_old_param_values policy0)
  ∧ (∃ self',
      set_param_values to_float32 lt policy0 v_exact false true = Ok self'
      ∧ trainable_params self' = trainable_params policy0
      ∧ (∀ q, q ∈ trainable_params policy0 →
              data (tensors self') q = data (tensors policy0) q)
      ∧ get_param_values self' = get_param_values policy0).
Proof.
  apply (set_param_values_frame to_float32 lt policy0 v_exact).
  - apply init_wf.
  - reflexivity.
Defined.

End BinaryFacts.

(** ** The Gaussian density *)

Section DensityFacts.
Open Scope R_scope.
Variable forward : list (list R) → list R → list R.

Local Abbreviation MLP := (@MLP R).
Local Abbreviation log_likelihood := (log_likelihood forward).

(** *** Sums *)

Lemma sum_upto_S (m : nat) (f : nat → R) :
  sum_upto (S m) f = f 0%nat + sum_upto m (λ j, f (S j)).
Proof.
  unfold sum_upto. simpl. f_equal. rewrite <- fmap_S_seq.
  generalize (seq 0 m). intros l. induction l as [|j l IH]; [done|].
  rewrite fmap_cons. simpl. by rewrite IH.
Qed.

Lemma sum_upto_ext (m : nat) (f g : nat → R) :
  (∀ j, (j < m)%nat → f j = g j) → sum_upto m f = sum_upto m g.
Proof.
  revert f g. induction m as [|m IH]; intros f g Hfg; [done|].
  rewrite !sum_upto_S. f_equal; [apply Hfg; lia|].
  apply IH. intros j Hj. apply Hfg. lia.
Qed.

Lemma torch_sum_nth (t : list R) :
  torch_sum t = sum_upto (length t) (λ j, nth j t 0).
Proof.
  induction t as [|x t IH]; [done|].
  simpl length. rewrite sum_upto_S. simpl. by rewrite IH.
Qed.

Lemma torch_sum_zeros (t : list R) :
  Forall (λ x, x = 0) t → torch_sum t = 0.
Proof. induction 1 as [|x t -> _ IH]; simpl; [done|]. rewrite IH. lra. Qed.

Lemma nth_fmap_lt {A : Type} (f : A → R) (l : list A) (j : nat) (a : A) :
  (j < length l)%nat → nth j (f <$> l) 0 = f (nth j l a).
Proof.
  intros Hj. destruct (lookup_lt_is_Some_2 l j Hj) as [x Hx].
  rewrite (nth_lookup_Some _ _ a x Hx).
  apply nth_lookup_Some. by rewrite list_lookup_fmap, Hx.
Qed.

Lemma nth_zip_with_lt (f : R → R → R) (l k : list R) (j : nat) :
  (j < length l)%nat → (j < length k)%nat →
  nth j (zip_with f l k) 0 = f (nth j l 0) (nth j k 0).
Proof.
  intros Hl Hk.
  destruct (lookup_lt_is_Some_2 l j Hl) as [x Hx].
  destruct (lookup_lt_is_Some_2 k j Hk) as [y Hy].
  rewrite (nth_lookup_Some _ _ 0 x Hx), (nth_lookup_Some _ _ 0 y Hy).
  apply nth_lookup_Some. by rewrite lookup_zip_with, Hx; simpl; rewrite Hy.
Qed.

(** *** One sample *)

(** The log-likelihood of one sample as [mean_LL] computes it equals the
    density in the words of the specification. *)
Lemma sample_log_density (m : nat) (act mu log_std : list R) :
  length act = m → length mu = m → length log_std = m →
  - 0.5 * torch_sum ((λ x, x ^ 2)
                       <$> zip_with Rdiv (zip_with Rminus act mu) (exp <$> log_std))
  + - torch_sum log_std
  + - 0.5 * INR m * ln (2 * PI)
  = gaussian_log_density m act mu log_std.
Proof.
  intros Ha Hmu Hl. unfold gaussian_log_density.
  rewrite (torch_sum_nth log_std), Hl.
  rewrite torch_sum_nth.
  rewrite length_fmap, length_zip_with, length_zip_with, length_fmap, Ha, Hmu, Hl.
  rewrite !Nat.min_id.
  rewrite (sum_upto_ext m _
             (λ j, ((nth j act 0 - nth j mu 0) / exp (nth j log_std 0)) ^ 2)).
  - lra.
  - intros j Hj.
    rewrite (nth_fmap_lt _ _ _ 0);
      [|rewrite !length_zip_with, length_fmap; lia].
    rewrite nth_zip_with_lt; [|rewrite length_zip_with; lia|rewrite length_fmap; lia].
    rewrite nth_zip_with_lt by lia.
    by rewrite (nth_fmap_lt _ _ _ 0) by lia.
Qed.

(** *** Claims about the density *)


(** [log_likelihood] treats the batch row by row. *)
Lemma log_likelihood_rowwise (self : MLP) (ma : option (list nat)) (la : option nat) :
  ∃ F : list R → list R → R,
    ∀ obs acts, log_likelihood self obs acts ma la = zip_with F acts obs.
Proof.
  eexists (λ a o, _). intros obs acts.
  unfold log_likelihood, mean_LL, apply_model. simpl.
  rewrite zip_with_fmap_r.
  revert obs. induction acts as [|a acts IH]; intros [|o obs]; try done.
  cbn. f_equal. apply IH.
Qed.

(** *** Reordering rows *)

Lemma reorder_is_Some {A : Type} (pi : list nat) (rows : list A) :
  pi ≡ₚ seq 0 (length rows) → is_Some (reorder pi rows).
Proof.
  intros Hpi. apply mapM_is_Some. rewrite Hpi.
  apply Forall_forall. intros i Hi%elem_of_seq. simpl.
  apply lookup_lt_is_Some_2. lia.
Qed.

Lemma omap_lookup_seq {A : Type} (l1 l2 : list A) :
  omap (λ i, (l1 ++ l2) !! i) (seq (length l1) (length l2)) = l2.
Proof.
  revert l1. induction l2 as [|x l2 IH]; intros l1; [done|].
  simpl. rewrite lookup_app_r, Nat.sub_diag by done. simpl. f_equal.
  specialize (IH (l1 ++ [x])). rewrite length_app, <- app_assoc in IH.
  simpl in IH. by rewrite Nat.add_1_r in IH.
Qed.

Lemma reorder_omap {A : Type} (pi : list nat) (rows rows' : list A) :
  reorder pi rows = Some rows' → omap (λ i, rows !! i) pi = rows'.
Proof.
  intros H%mapM_Some_1. induction H as [|i x pi rows' Hx _ IH]; [done|].
  simpl. rewrite Hx. simpl. f_equal. exact IH.
Qed.

Lemma reorder_Permutation {A : Type} (pi : list nat) (rows rows' : list A) :
  pi ≡ₚ seq 0 (length rows) → reorder pi rows = Some rows' → rows' ≡ₚ rows.
Proof.
  intros Hpi H%reorder_omap. rewrite <- H, Hpi.
  pose proof (omap_lookup_seq [] rows) as Hseq. simpl in Hseq.
  by rewrite Hseq.
Qed.

Lemma reorder_zip_with {A B C : Type} (F : A → B → C) (pi : list nat)
    (l l' : list A) (k k' : list B) :
  reorder pi l = Some l' → reorder pi k = Some k' →
  reorder pi (zip_with F l k) = Some (zip_with F l' k').
Proof.
  intros Hl%mapM_Some_1 Hk%mapM_Some_1. apply mapM_Some_2.
  revert k' Hk. induction Hl as [|i x pi l' Hx _ IH]; intros k' Hk.
  - inversion Hk. constructor.
  - inversion Hk as [|? y ? k'' Hy Hk']; subst. simpl. constructor.
    + by rewrite lookup_zip_with, Hx; simpl; rewrite Hy.
    + by apply IH.
Qed.

(** C6 (amended).  For a batch of [n] observations and [n] actions of [m]
    coordinates each and a permutation [pi] of the row indices,
    [log_likelihood] of the
    observations and actions both reordered by [pi] is the result for
    the unpermuted batch reordered by [pi]: every sample keeps its value,
    and the result holds the same values as before, in the order of
    [pi]. *)
Theorem log_likelihood_reorder (self : MLP) (pi : list nat)
    (obs acts : list (list R)) :
  wf self →
  length obs = length acts →
  Forall (λ a, length a = m self) acts →
  Forall (λ o, length (forward (data (tensors self) <$> model self) o) = m self)
    obs →
  pi ≡ₚ seq 0 (length obs) →
  ∃ obs' acts',
    reorder pi obs = Some obs' ∧ reorder pi acts = Some acts'
    ∧ reorder pi (log_likelihood self obs acts None None)
      = Some (log_likelihood self obs' acts' None None)
    ∧ log_likelihood self obs' acts' None None
      ≡ₚ log_likelihood self obs acts None None.
Proof.
  intros _ Hlen _ _ Hpi.
  destruct (reorder_is_Some pi obs Hpi) as [obs' Hobs].
  destruct (reorder_is_Some pi acts) as [acts' Hacts]; [by rewrite <- Hlen|].
  destruct (log_likelihood_rowwise self None None) as [F HF].
  exists obs', acts'. split; [done|]. split; [done|].
  assert (Hre : reorder pi (log_likelihood self obs acts None None)
                = Some (log_likelihood self obs' acts' None None)).
  { rewrite !HF. by apply reorder_zip_with. }
  split; [done|].
  eapply reorder_Permutation; [|exact Hre].
  rewrite HF, length_zip_with. rewrite <- Hlen, Nat.min_id. done.
Qed.


(** One sample of [mean_kl(d, d)]: every summand vanishes. *)
Lemma sample_kl_self (mu ls : list R) :
  torch_sum
    (zip_with Rminus
       (zip_with Rplus
          (zip_with Rdiv
             (zip_with Rminus
                (zip_with Rplus ((λ x, x ^ 2) <$> zip_with Rminus mu mu)
                   ((λ x, x ^ 2) <$> (exp <$> ls)))
                ((λ x, x ^ 2) <$> (exp <$> ls)))
             ((λ s, 2 * s ^ 2 + 1e-8) <$> (exp <$> ls)))
          ls)
       ls) = 0.
Proof.
  apply torch_sum_zeros.
  revert mu. induction ls as [|l ls IH]; intros [|x mu]; cbn; try done.
  constructor; [|apply IH]. unfold Rdiv. ring.
Qed.


End DensityFacts.

(** ** The density claims on a one-weight policy *)

Module LinearFacts.
Import Linear.
Open Scope R_scope.

Lemma policy1_log_std : data (tensors policy1) (log_std policy1) = [0].
Proof. apply (init_log_std_data 1 1 (-3) 0 [[1]]). Qed.

Lemma policy1_model : data (tensors policy1) <$> model policy1 = [[1]].
Proof. apply (init_model_data 1 1 (-3) 0 [[1]]). Qed.

Lemma log_likelihood_policy1 (o1 o2 a1 a2 : R) :
  log_likelihood forward policy1 [[o1]; [o2]] [[a1]; [a2]] None None
  = [ - 0.5 * ((a1 - o1) ^ 2) - 0.5 * ln (2 * PI);
      - 0.5 * ((a2 - o2) ^ 2) - 0.5 * ln (2 * PI) ].
Proof.
  unfold log_likelihood, mean_LL, apply_model. cbn [default].
  rewrite policy1_log_std, policy1_model. cbn. rewrite exp_0.
  f_equal; [lra|f_equal; lra].
Qed.


(** C6 on the batch [obs2], [acts2] with its two rows exchanged. *)
Lemma log_likelihood_reorder_witness :
  ∃ obs' acts',
    reorder swap obs2 = Some obs' ∧ reorder swap acts2 = Some acts'
    ∧ reorder swap (log_likelihood forward policy1 obs2 acts2 None None)
      = Some (log_likelihood forward policy1 obs' acts' None None)
    ∧ log_likelihood forward policy1 obs' acts' None None
      ≡ₚ log_likelihood forward policy1 obs2 acts2 None None.
Proof.
  apply (log_likelihood_reorder forward policy1 swap obs2 acts2).
  - apply init_wf.
  - reflexivity.
  - repeat constructor.
  - repeat constructor.
  - apply perm_swap.
Defined.

(** C6 as stated fails: exchanging the two rows of [obs2] and [acts2]
    exchanges the two values of the result, which are different. *)
Lemma log_likelihood_not_invariant :
  reorder swap obs2 = Some [[1]; [0]]
  ∧ reorder swap acts2 = Some [[0]; [0]]
  ∧ log_likelihood forward policy1 [[1]; [0]] [[0]; [0]] None None
    ≠ log_likelihood forward policy1 obs2 acts2 None None.
Proof.
  split; [reflexivity|]. split; [reflexivity|].
  unfold obs2, acts2. rewrite !log_likelihood_policy1.
  intros H. injection H as H _. lra.
Qed.



End LinearFacts.

(** ** The job script *)

Module TrainFacts.
Import Train.
Open Scope Z_scope.

Section Window.
Context {Obs Act Rew W : Type}.
Local Abbreviation path := (@path Obs Act Rew).
Local Abbreviation state := (@state Obs Act Rew W).

Lemma buffer_size_cons (p : path) (ps : list path) :
  buffer_size (p :: ps)
  = Z.of_nat (length (observations p)) - 1 + buffer_size ps.
Proof. done. Qed.

(** The loop stops at the longest suffix within the ceiling. *)
Lemma evict_spec (limit : Z) (ps kept : list path) :
  evict limit ps = Some kept →
  buffer_size kept ≤ limit
  ∧ kept `suffix_of` ps
  ∧ ∀ l, l `suffix_of` ps → (length kept < length l)%nat →
         limit < buffer_size l.
Proof.
  induction ps as [|p ps IH]; simpl.
  - destruct (buffer_size [] >? limit) eqn:E; [done|].
    intros [= <-]. split; [lia|]. split; [done|].
    intros l [k Hk] Hlen. symmetry in Hk.
    apply app_eq_nil in Hk as [_ ->]. simpl in Hlen. lia.
  - destruct (buffer_size (p :: ps) >? limit) eqn:E.
    + intros (Hle & Hsuf & Hmax)%IH. split; [done|].
      split; [by apply suffix_cons_r|].
      intros [|x l] Hl Hlen; [simpl in Hlen; lia|].
      apply suffix_cons_inv in Hl as [[= -> ->]|Hl]; [lia|].
      by apply Hmax.
    + intros [= <-]. split; [lia|]. split; [done|].
      intros l Hl%suffix_length Hlen. lia.
Qed.

(** With a ceiling that is not negative the loop ends. *)
Lemma evict_total (limit : Z) (ps : list path) :
  0 ≤ limit → is_Some (evict limit ps).
Proof.
  intros Hlimit. induction ps as [|p ps IH]; simpl.
  - destruct (buffer_size [] >? limit) eqn:E; [|done].
    unfold buffer_size in E. simpl in E. lia.
  - by destruct (buffer_size (p :: ps) >? limit).
Qed.

(** With a negative ceiling it never leaves the empty window. *)
Lemma evict_negative (limit : Z) :
  limit < 0 → evict (Obs := Obs) (Act := Act) (Rew := Rew) limit [] = None.
Proof.
  intros Hlimit. simpl. destruct (buffer_size [] >? limit) eqn:E; [done|].
  unfold buffer_size in E. simpl in E. lia.
Qed.

Lemma append_paths_finished (sampled : list path) (st st' : state) :
  append_paths sampled st = Finished st' →
  paths st' = paths st ++ sampled
  ∧ iter_paths st' = iter_paths st ∧ eval_paths st' = eval_paths st
  ∧ world st' = world st ∧ trace st' = trace st.
Proof.
  revert st. induction sampled as [|p ps IH]; intros st; simpl.
  - intros [= <-]. by rewrite app_nil_r.
  - destruct (observations p) as [|o obs]; [done|].
    intros (Hp & ? & ? & ? & ?)%IH. simpl in *.
    by rewrite Hp, <- app_assoc.
Qed.

Lemma append_paths_total (sampled : list path) (st : state) :
  Forall (λ p, observations p ≠ []) sampled →
  ∃ st', append_paths sampled st = Finished st'.
Proof.
  intros H. revert st. induction H as [|p ps Hp _ IH]; intros st; simpl.
  - by eexists.
  - destruct (observations p) as [|o obs]; [done|]. apply IH.
Qed.

(** C9.  When the data-ingestion step of an outer iteration is over,
    the path window holds at most [buffer_size] transitions, counting
    [len(observations) - 1] per path; the retained paths are a suffix
    of the window in insertion order (old paths, then the new ones),
    and no longer suffix was within the ceiling: whole paths were
    evicted, oldest first, and only as far as needed.  The step does
    come to this point when the ceiling is not negative and every
    sampled path has an observation. *)
Theorem path_window_bounded (job_data : job) (sampled : list path) (st : state) :
  (∀ st', ingest job_data sampled st = Finished st' →
      buffer_size (paths st') ≤ buffer_size_limit job_data
      ∧ paths st' `suffix_of` (paths st ++ sampled)
      ∧ ∀ l, l `suffix_of` (paths st ++ sampled) →
             (length (paths st') < length l)%nat →
             buffer_size_limit job_data < buffer_size l)
  ∧ (0 ≤ buffer_size_limit job_data →
     Forall (λ p, observations p ≠ []) sampled →
     ∃ st', ingest job_data sampled st = Finished st').
Proof.
  unfold ingest. split.
  - intros st'. destruct (append_paths sampled st) as [st1| |] eqn:E; try done.
    apply append_paths_finished in E as (Hp & _). simpl.
    destruct (evict _ (paths st1)) as [kept|] eqn:Hev; [|done].
    intros [= <-]. simpl. rewrite <- Hp. by apply evict_spec.
  - intros Hlimit Hobs.
    destruct (append_paths_total sampled st Hobs) as [st1 ->]. simpl.
    destruct (evict_total _ (paths st1) Hlimit) as [kept ->]. by eexists.
Qed.

End Window.

Section LoopFacts.
Context {Obs Act Rew V W : Type}.
Local Abbreviation path := (@path Obs Act Rew).
Local Abbreviation state := (@state Obs Act Rew W).

Variable sample_data_batch : Z → Z → W → list path * W.
Variable replay_store : list path → W → W.
Variable new_models : Z → W → W.
Variable compute_loss : nat → list path → Z → W → W.
Variable fit_dynamics : nat → list path → W → W.
Variable fit_reward : nat → list path → W → W.
Variable new_policy : W → W.
Variable train_step : Z → pyval → list Obs → list path → W → W.
Variable evaluate_policy : Z → W → list path * W.
Variable job_data : job.

Local Abbreviation collect := (collect sample_data_batch replay_store job_data).
Local Abbreviation fit_model :=
  (fit_model compute_loss fit_dynamics fit_reward job_data).
Local Abbreviation fit_models :=
  (fit_models new_models compute_loss fit_dynamics fit_reward job_data).
Local Abbreviation refresh := (refresh new_policy job_data).
Local Abbreviation npg_updates := (npg_updates train_step job_data).
Local Abbreviation evaluate := (evaluate evaluate_policy).
Local Abbreviation outer_iteration :=
  (outer_iteration sample_data_batch replay_store new_models compute_loss
     fit_dynamics fit_reward new_policy train_step evaluate_policy).
Local Abbreviation iterations :=
  (iterations sample_data_batch replay_store new_models compute_loss
     fit_dynamics fit_reward new_policy train_step evaluate_policy).
Local Abbreviation train :=
  (train sample_data_batch replay_store new_models compute_loss
     fit_dynamics fit_reward new_policy train_step evaluate_policy).

(** *** What a phase adds to the trace *)

Lemma emits_only_refl (P : event → Prop) (st : state) :
  emits_only P st (Finished st).
Proof. exists []. split; [by rewrite app_nil_r|done]. Qed.

Lemma emits_only_impl (P Q : event → Prop) (st : state) (r : outcome state) :
  (∀ e, P e → Q e) → emits_only P st r → emits_only Q st r.
Proof.
  intros HPQ (evs & Htr & HP). exists evs. split; [done|].
  by eapply Forall_impl.
Qed.

Lemma emits_only_trans (P : event → Prop) (st st' : state) (r : outcome state) :
  emits_only P st (Finished st') → emits_only P st' r → emits_only P st r.
Proof.
  intros (evs & Htr & HP) (evs' & Htr' & HP'). exists (evs ++ evs').
  split; [|by apply Forall_app]. simpl in Htr.
  by rewrite Htr', Htr, app_assoc.
Qed.

Lemma emits_only_emit (P : event → Prop) (evs : list event) (st : state) :
  Forall P evs → emits_only P st (Finished (emit evs st)).
Proof. intros H. by exists evs. Qed.

Lemma emits_only_state (P : event → Prop) (st st' : state) :
  trace st' = trace st → emits_only P st (Finished st').
Proof. intros H. exists []. simpl. by rewrite H, app_nil_r. Qed.

Lemma plain_log (key : string) :
  key ≠ "rollout_metric" → key ≠ "eval_metric" → plain (LogKv key).
Proof.
  intros H1 H2. split; [done|]. unfold is_metric.
  apply bool_decide_eq_false. intros [[=]|[=]]; done.
Qed.

Lemma append_paths_trace (sampled : list path) (st : state) :
  let r := append_paths sampled st in
  trace (outcome_state r) = trace st
  ∧ iter_paths (outcome_state r) = iter_paths st
  ∧ eval_paths (outcome_state r) = eval_paths st
  ∧ ∀ e s, r = Failed e s → e = IndexError.
Proof.
  revert st. induction sampled as [|p ps IH]; intros st; simpl; [done|].
  destruct (observations p) as [|o obs]; simpl.
  - repeat split; try done. by intros e s [= <- _].
  - destruct (IH {| paths := paths st ++ [p];
                    init_states_buffer := init_states_buffer st ++ [o];
                    iter_paths := iter_paths st; eval_paths := eval_paths st;
                    world := world st; trace := trace st |})
      as (? & ? & ? & ?). done.
Qed.

Lemma ingest_trace (sampled : list path) (st : state) :
  let r := ingest job_data sampled st in
  trace (outcome_state r) = trace st
  ∧ iter_paths (outcome_state r) = iter_paths st
  ∧ eval_paths (outcome_state r) = eval_paths st
  ∧ ∀ e s, r = Failed e s → e = IndexError.
Proof.
  unfold ingest. pose proof (append_paths_trace sampled st) as H.
  simpl in H. destruct (append_paths sampled st) as [s|e s|s]; simpl in *.
  - destruct H as (? & ? & ? & _). by destruct (evict _ _).
  - done.
  - destruct H as (? & ? & ? & _). done.
Qed.

Lemma carries_impl (P Q : event → Prop) (st : state) (r : outcome state) :
  (∀ e, P e → Q e) → carries P st r → carries Q st r.
Proof. intros HPQ (H & ?). split; [by eapply emits_only_impl|done]. Qed.

Lemma carries_finished (P : event → Prop) (evs : list event) (st : state) :
  Forall P evs → carries P st (Finished (emit evs st)).
Proof. intros H. split; [by apply emits_only_emit|done]. Qed.

Lemma carries_refl (P : event → Prop) (st : state) :
  carries P st (Finished st).
Proof. split; [apply emits_only_refl|done]. Qed.

Lemma carries_trans (P : event → Prop) (st st' : state) (r : outcome state) :
  carries P st (Finished st') → carries P st' r → carries P st r.
Proof.
  intros (H1 & Hi & He & _) (H2 & Hi' & He' & Hf). simpl in *.
  split; [by eapply emits_only_trans|]. by rewrite Hi', He'.
Qed.

Lemma carries_andthen (P : event → Prop) (st : state) (r : outcome state)
    (k : state → outcome state) :
  carries P st r → (∀ s, carries P s (k s)) → carries P st (andthen r k).
Proof.
  intros Hr Hk. destruct r as [s| |]; simpl; [|done..].
  by eapply carries_trans.
Qed.

Lemma carries_call (P : event → Prop) (f : W → W) (st s : state) :
  carries P st (Finished s) → carries P st (Finished (call f s)).
Proof.
  intros H. eapply carries_trans; [exact H|].
  split; [by apply emits_only_state|done].
Qed.

Lemma carries_emit (P : event → Prop) (evs : list event) (st s : state) :
  Forall P evs → carries P st (Finished s) →
  carries P st (Finished (emit evs s)).
Proof.
  intros Hevs H. eapply carries_trans; [exact H|].
  by apply carries_finished.
Qed.

Lemma fit_model_carries (samples : Z) (i : nat) (st : state) :
  carries plain st (Finished (fit_model samples i st)).
Proof.
  unfold fit_model. cbv zeta.
  assert (Hkey : ∀ pre : string, (pre = "dyn_loss_" ∨ pre = "dyn_loss_gen_"
                    ∨ pre = "rew_loss_") → plain (LogKv (pre +:+ pretty i))).
  { intros pre Hpre. apply plain_log; destruct Hpre as [-> | [-> | ->]]; done. }
  destruct (learn_reward job_data).
  - apply carries_emit;
      [repeat (apply Forall_cons_2; [first [by split | apply Hkey; auto]|]);
       apply Forall_nil_2|].
    apply carries_call.
    apply carries_emit;
      [repeat (apply Forall_cons_2; [apply Hkey; auto|]); apply Forall_nil_2|].
    apply carries_emit; [by repeat constructor|]. apply carries_call.
    apply carries_emit; [by repeat constructor|]. apply carries_call.
    apply carries_refl.
  - apply carries_emit;
      [repeat (apply Forall_cons_2; [apply Hkey; auto|]); apply Forall_nil_2|].
    apply carries_emit; [by repeat constructor|]. apply carries_call.
    apply carries_emit; [by repeat constructor|]. apply carries_call.
    apply carries_refl.
Qed.

Lemma foldl_carries {A : Type} (f : state → A → state) (l : list A) (st : state) :
  (∀ s a, carries plain s (Finished (f s a))) →
  carries plain st (Finished (foldl f st l)).
Proof.
  intros Hf. revert st. induction l as [|a l IH]; intros st; simpl.
  - apply carries_refl.
  - eapply carries_trans; [apply Hf|apply IH].
Qed.

Lemma fit_models_carries (outer_iter : Z) (st : state) :
  carries plain st (fit_models outer_iter st).
Proof.
  unfold Train.fit_models. cbv zeta.
  eapply carries_trans; [|apply foldl_carries; intros s i; apply fit_model_carries].
  destruct (refresh_fit job_data); [|apply carries_refl].
  apply carries_emit; [by repeat constructor|]. apply carries_call.
  apply carries_refl.
Qed.

Lemma refresh_carries (st : state) : carries plain st (refresh st).
Proof.
  unfold Train.refresh. destruct (refresh_policy job_data) as [[|]|];
    try apply carries_refl.
  apply carries_emit; [by repeat constructor|]. apply carries_call.
  apply carries_refl.
Qed.

Lemma npg_updates_carries (st : state) : carries plain st (npg_updates st).
Proof.
  unfold Train.npg_updates. apply foldl_carries. intros s i.
  apply carries_emit; [by repeat constructor|]. apply carries_call.
  apply carries_refl.
Qed.

Lemma finish_carries (st : state) : carries plain st (finish st).
Proof.
  unfold finish. apply carries_finished.
  repeat constructor; done.
Qed.

Lemma checkpoint_carries (outer_iter : Z) (st : state) :
  carries (λ e, is_metric e = false) st (checkpoint job_data outer_iter st).
Proof.
  unfold checkpoint. destruct (outer_iter >? 0); [|apply carries_refl].
  destruct (save_freq job_data =? 0).
  { split; [|split; [done|split; [done|]]].
    - exists []. simpl. by rewrite app_nil_r.
    - by intros e s [= <- _]. }
  destruct (_ =? 0); [|apply carries_refl].
  apply carries_finished. by repeat constructor.
Qed.

Lemma collect_carries (outer_iter : Z) (st : state) :
  let r := collect outer_iter st in
  emits_only plain st r
  ∧ eval_paths (outcome_state r) = eval_paths st
  ∧ ∀ e s, r = Failed e s → e ≠ CallbackError.
Proof.
  unfold Train.collect. destruct (sample_data_batch _ _ _) as [sampled w].
  set (st0 := {| paths := paths st; iter_paths := sampled |}).
  pose proof (ingest_trace sampled st0) as (Htr & _ & He & Hf).
  destruct (ingest job_data sampled st0) as [s|e s|s] eqn:E; simpl in *.
  - destruct (paths s) eqn:Hp; simpl.
    + split; [|split; [done|by intros e s' [= <- _]]].
      eexists. simpl. rewrite Htr. split; [done|by repeat constructor].
    + split; [|split; [done|done]].
      eexists. simpl. rewrite Htr, <- app_assoc. split; [done|].
      by repeat constructor.
  - split; [|split; [done|]].
    + eexists. simpl. rewrite Htr. split; [done|by repeat constructor].
    + intros e' s' [= <- _]. by rewrite (Hf e s eq_refl).
  - split; [|split; [done|done]].
    eexists. simpl. rewrite Htr. split; [done|by repeat constructor].
Qed.

Lemma log_rollout_spec (es : list path → option V) (st : state) :
  ∃ st', log_rollout es st = Finished st'
         ∧ iter_paths st' = iter_paths st ∧ eval_paths st' = eval_paths st
         ∧ ∃ evs, trace st' = trace st ++ evs
                  ∧ Forall (λ e, plain e
                                 ∨ (e = LogKv "rollout_metric"
                                    ∧ is_Some (es (iter_paths st)))) evs.
Proof.
  unfold log_rollout, try_log_success. simpl.
  destruct (es (iter_paths st)) as [metric|] eqn:E; eexists; split; try done;
    simpl; (split; [done|]); (split; [done|]).
  - eexists [_; _; _; _]. rewrite <- app_assoc. split; [done|].
    repeat (apply Forall_cons_2; [first [by left | by right]|]).
    apply Forall_nil_2.
  - eexists [_; _; _]. split; [done|].
    repeat (apply Forall_cons_2; [by left|]). apply Forall_nil_2.
Qed.

Lemma evaluate_spec (es : list path → option V) (st : state) :
  ∃ st', evaluate es job_data st = Finished st'
         ∧ iter_paths st' = iter_paths st
         ∧ ∃ evs, trace st' = trace st ++ evs
                  ∧ Forall (λ e, plain e
                                 ∨ (e = LogKv "eval_metric"
                                    ∧ is_Some (es (eval_paths st')))) evs.
Proof.
  unfold Train.evaluate, try_log_success.
  destruct (eval_rollouts job_data >? 0).
  - destruct (evaluate_policy _ _) as [evaluated w]. simpl.
    destruct (es evaluated) as [metric|] eqn:E; eexists; split; try done;
      simpl; (split; [done|]).
    + eexists [_; _; _]. rewrite <- app_assoc. split; [done|].
      repeat (apply Forall_cons_2; [first [by left | right; by rewrite E]|]).
      apply Forall_nil_2.
    + eexists [_; _]. split; [done|].
      repeat (apply Forall_cons_2; [by left|]). apply Forall_nil_2.
  - eexists. split; [done|]. simpl. split; [done|].
    exists []. by rewrite app_nil_r.
Qed.

(** Checkpoint and end of the iteration. *)
Lemma closing_carries (outer_iter : Z) (st : state) :
  carries (λ e, is_metric e = false) st
    (andthen (checkpoint job_data outer_iter st) finish).
Proof.
  apply carries_andthen; [apply checkpoint_carries|].
  intros s. eapply carries_impl; [|apply finish_carries]. by intros e [_ ?].
Qed.

(** Model fitting, policy refresh, and the inner steps. *)
Lemma middle_carries (outer_iter : Z) (st : state) :
  carries plain st
    (andthen (fit_models outer_iter st) (λ st,
       andthen (refresh st) npg_updates)).
Proof.
  apply carries_andthen; [apply fit_models_carries|]. intros s.
  apply carries_andthen; [apply refresh_carries|]. intros s'.
  apply npg_updates_carries.
Qed.

(** The iteration, with its phases grouped. *)
Lemma outer_iteration_grouped (es : list path → option V) (outer_iter : Z)
    (st : state) :
  outer_iteration es job_data outer_iter st
  = andthen (collect outer_iter st) (λ st,
    andthen (log_rollout es st) (λ st,
    andthen (andthen (fit_models outer_iter st) (λ st,
               andthen (refresh st) npg_updates)) (λ st,
    andthen (evaluate es job_data st) (λ st,
    andthen (checkpoint job_data outer_iter st) finish)))).
Proof.
  unfold Train.outer_iteration.
  destruct (collect outer_iter st) as [s1| |]; cbn [andthen]; [|done..].
  destruct (log_rollout es s1) as [s2| |]; cbn [andthen]; [|done..].
  destruct (fit_models outer_iter s2) as [s3| |]; cbn [andthen]; [|done..].
  destruct (refresh s3); cbn [andthen]; done.
Qed.

(** What an iteration adds to the trace: a success metric only where
    the callback returned one. *)
Lemma outer_iteration_trace (es : list path → option V) (outer_iter : Z)
    (st : state) :
  let r := outer_iteration es job_data outer_iter st in
  (∀ e s, r = Failed e s → e ≠ CallbackError)
  ∧ emits_only
      (λ e, is_metric e = false
            ∨ (e = LogKv "rollout_metric"
               ∧ is_Some (es (iter_paths (outcome_state r))))
            ∨ (e = LogKv "eval_metric"
               ∧ is_Some (es (eval_paths (outcome_state r)))))
      st r.
Proof.
  rewrite outer_iteration_grouped.
  pose proof (collect_carries outer_iter st) as (Hc & _ & Hcf).
  destruct (collect outer_iter st) as [st1|e1 s1|s1];
    cbn [andthen outcome_state] in *;
    [|split; [by intros e s [= <- <-]; eapply Hcf
             |eapply emits_only_impl; [|exact Hc]; intros e [_ ?]; by left]
     |split; [done
             |eapply emits_only_impl; [|exact Hc]; intros e [_ ?]; by left]].
  destruct (log_rollout_spec es st1) as (st2 & -> & Hi2 & He2 & evs2 & Ht2 & HP2).
  cbn [andthen].
  pose proof (middle_carries outer_iter st2) as (Hm & Hmi & Hme & Hmf).
  destruct (andthen (fit_models outer_iter st2) _) as [st3|e3 s3|s3];
    cbn [andthen outcome_state] in *.
  - destruct (evaluate_spec es st3) as (st4 & -> & Hi4 & evs4 & Ht4 & HP4).
    cbn [andthen].
    pose proof (closing_carries outer_iter st4) as (Hk & Hki & Hke & Hkf).
    set (r := andthen (checkpoint job_data outer_iter st4) finish) in *.
    split; [exact Hkf|].
    eapply emits_only_trans;
      [eapply emits_only_impl; [|exact Hc]; intros e [_ ?]; by left|].
    eapply (emits_only_trans _ _ st2).
    { exists evs2. split; [done|]. eapply Forall_impl; [exact HP2|].
      intros e [[_ ?]|[-> Hs]]; [by left|]. right; left. split; [done|].
      by rewrite Hki, Hi4, Hmi, Hi2. }
    eapply emits_only_trans;
      [eapply emits_only_impl; [|exact Hm]; intros e [_ ?]; by left|].
    eapply (emits_only_trans _ _ st4).
    { exists evs4. split; [done|]. eapply Forall_impl; [exact HP4|].
      intros e [[_ ?]|[-> Hs]]; [by left|]. right; right. split; [done|].
      by rewrite Hke. }
    eapply emits_only_impl; [|exact Hk]. intros e ?. by left.
  - split; [by intros e s [= <- <-]; eapply Hmf|].
    eapply emits_only_trans;
      [eapply emits_only_impl; [|exact Hc]; intros e [_ ?]; by left|].
    eapply (emits_only_trans _ _ st2).
    { exists evs2. split; [done|]. eapply Forall_impl; [exact HP2|].
      intros e [[_ ?]|[-> Hs]]; [by left|]. right; left. split; [done|].
      by rewrite Hmi, Hi2. }
    eapply emits_only_impl; [|exact Hm]; intros e [_ ?]; by left.
  - split; [done|].
    eapply emits_only_trans;
      [eapply emits_only_impl; [|exact Hc]; intros e [_ ?]; by left|].
    eapply (emits_only_trans _ _ st2).
    { exists evs2. split; [done|]. eapply Forall_impl; [exact HP2|].
      intros e [[_ ?]|[-> Hs]]; [by left|]. right; left. split; [done|].
      by rewrite Hmi, Hi2. }
    eapply emits_only_impl; [|exact Hm]; intros e [_ ?]; by left.
Qed.

(** *** Runs that differ in the success callback *)

Lemma without_metrics_app (a b : list event) :
  without_metrics (a ++ b) = without_metrics a ++ without_metrics b.
Proof. apply filter_app. Qed.

Lemma sim_refl (st : state) : sim st st.
Proof. by repeat split. Qed.

Lemma sim_emit (evs : list event) (st st' : state) :
  sim st st' → sim (emit evs st) (emit evs st').
Proof.
  intros (? & ? & ? & ? & ? & Htr). repeat split; simpl; try done.
  by rewrite !without_metrics_app, Htr.
Qed.

Lemma sim_call (f : W → W) (st st' : state) :
  sim st st' → sim (call f st) (call f st').
Proof.
  intros (? & ? & ? & ? & Hw & ?). repeat split; simpl; try done.
  by rewrite Hw.
Qed.

Lemma sim_emit_metric (key : string) (st st' : state) :
  is_metric (LogKv key) = true → sim st st' → sim (emit [LogKv key] st) st'.
Proof.
  intros Hkey (? & ? & ? & ? & ? & Htr). repeat split; simpl; try done.
  rewrite without_metrics_app, Htr. unfold without_metrics at 2.
  rewrite filter_cons_False, filter_nil, app_nil_r; [done|].
  by rewrite Hkey.
Qed.

Lemma sim_sym (st st' : state) : sim st st' → sim st' st.
Proof. intros (? & ? & ? & ? & ? & ?). by repeat split. Qed.

Lemma try_log_success_sim (es es' : list path → option V) (key : string)
    (ps : list path) (st st' : state) :
  is_metric (LogKv key) = true → sim st st' →
  sim (try_log_success es key ps st) (try_log_success es' key ps st').
Proof.
  intros Hkey Hsim. unfold try_log_success.
  destruct (es ps), (es' ps); try done.
  - by apply sim_emit.
  - by apply sim_emit_metric.
  - by apply sim_sym, sim_emit_metric, sim_sym.
Qed.

Lemma osim_andthen (r r' : outcome state) (k k' : state → outcome state) :
  osim r r' → (∀ s s', sim s s' → osim (k s) (k' s')) →
  osim (andthen r k) (andthen r' k').
Proof. destruct r, r'; simpl; try done. intros H Hk. by apply Hk. Qed.

Lemma append_paths_sim (sampled : list path) (st st' : state) :
  sim st st' → osim (append_paths sampled st) (append_paths sampled st').
Proof.
  revert st st'. induction sampled as [|p ps IH]; intros st st' Hsim; simpl.
  - done.
  - destruct Hsim as (Hp & Hi & ? & ? & ? & ?).
    destruct (observations p) as [|o obs]; simpl.
    + split; [done|]. repeat split; simpl; try done. by rewrite Hp.
    + apply IH. repeat split; simpl; try done; by rewrite ?Hp, ?Hi.
Qed.

Lemma ingest_sim (sampled : list path) (st st' : state) :
  sim st st' → osim (ingest job_data sampled st) (ingest job_data sampled st').
Proof.
  intros Hsim. unfold ingest.
  apply osim_andthen; [by apply append_paths_sim|].
  intros s s' (Hp & ? & ? & ? & ? & ?). rewrite Hp.
  destruct (evict _ (paths s')); simpl; by repeat split.
Qed.

Lemma collect_sim (outer_iter : Z) (st st' : state) :
  sim st st' → osim (collect outer_iter st) (collect outer_iter st').
Proof.
  intros (Hp & Hi & ? & ? & Hw & Htr). unfold Train.collect. rewrite Hw.
  destruct (sample_data_batch _ _ _) as [sampled w].
  apply osim_andthen.
  - apply ingest_sim. repeat split; simpl; try done.
    by rewrite !without_metrics_app, Htr.
  - intros s s' Hs. pose proof Hs as (Hp' & _). rewrite Hp'.
    destruct (paths s'); simpl; [done|].
    apply sim_emit, sim_call. done.
Qed.

Lemma log_rollout_sim (es es' : list path → option V) (st st' : state) :
  sim st st' → osim (log_rollout es st) (log_rollout es' st').
Proof.
  intros Hsim. unfold log_rollout. simpl.
  pose proof Hsim as (_ & _ & Hit & _). rewrite Hit.
  apply try_log_success_sim; [done|]. by apply sim_emit.
Qed.

Lemma fit_model_sim (samples : Z) (i : nat) (st st' : state) :
  sim st st' → sim (fit_model samples i st) (fit_model samples i st').
Proof.
  intros Hsim. unfold fit_model. pose proof Hsim as (Hp & _).
  cbn [paths emit call]. rewrite Hp.
  destruct (learn_reward job_data);
    repeat first [apply sim_emit | apply sim_call]; done.
Qed.

Lemma foldl_sim {A : Type} (f : state → A → state) (l : list A) (st st' : state) :
  (∀ s s' a, sim s s' → sim (f s a) (f s' a)) →
  sim st st' → sim (foldl f st l) (foldl f st' l).
Proof.
  intros Hf. revert st st'. induction l as [|a l IH]; intros st st' Hsim; simpl.
  - done.
  - apply IH. by apply Hf.
Qed.

Lemma fit_models_sim (outer_iter : Z) (st st' : state) :
  sim st st' → osim (fit_models outer_iter st) (fit_models outer_iter st').
Proof.
  intros Hsim. unfold Train.fit_models. simpl.
  apply foldl_sim; [intros s s' i; apply fit_model_sim|].
  destruct (refresh_fit job_data); [|done]. by apply sim_emit, sim_call.
Qed.

Lemma refresh_sim (st st' : state) :
  sim st st' → osim (refresh st) (refresh st').
Proof.
  intros Hsim. unfold Train.refresh.
  destruct (refresh_policy job_data) as [[|]|]; simpl; try done.
  by apply sim_emit, sim_call.
Qed.

Lemma npg_updates_sim (st st' : state) :
  sim st st' → osim (npg_updates st) (npg_updates st').
Proof.
  intros Hsim. unfold Train.npg_updates. simpl.
  apply foldl_sim; [|done]. intros s s' i Hs.
  pose proof Hs as (Hp & Hi & _). rewrite Hp, Hi.
  by apply sim_emit, sim_call.
Qed.

Lemma evaluate_sim (es es' : list path → option V) (st st' : state) :
  sim st st' → osim (evaluate es job_data st) (evaluate es' job_data st').
Proof.
  intros Hsim. unfold Train.evaluate.
  pose proof Hsim as (Hp & Hi & Hit & _ & Hw & Htr).
  destruct (eval_rollouts job_data >? 0).
  - rewrite Hw. destruct (evaluate_policy _ _) as [evaluated w]. simpl.
    apply try_log_success_sim; [done|].
    repeat split; simpl; try done. by rewrite !without_metrics_app, Htr.
  - simpl. by repeat split.
Qed.

Lemma checkpoint_sim (outer_iter : Z) (st st' : state) :
  sim st st' →
  osim (checkpoint job_data outer_iter st) (checkpoint job_data outer_iter st').
Proof.
  intros Hsim. unfold checkpoint.
  destruct (outer_iter >? 0); [|done].
  destruct (save_freq job_data =? 0); [done|].
  destruct (_ =? 0); [|done]. simpl. by apply sim_emit.
Qed.

Lemma outer_iteration_sim (es es' : list path → option V) (outer_iter : Z)
    (st st' : state) :
  sim st st' →
  osim (outer_iteration es job_data outer_iter st)
       (outer_iteration es' job_data outer_iter st').
Proof.
  intros Hsim. unfold Train.outer_iteration.
  apply osim_andthen; [by apply collect_sim|]. intros s1 s1' H1.
  apply osim_andthen; [by apply log_rollout_sim|]. intros s2 s2' H2.
  apply osim_andthen; [by apply fit_models_sim|]. intros s3 s3' H3.
  apply osim_andthen; [by apply refresh_sim|]. intros s4 s4' H4.
  apply osim_andthen; [by apply npg_updates_sim|]. intros s5 s5' H5.
  apply osim_andthen; [by apply evaluate_sim|]. intros s6 s6' H6.
  apply osim_andthen; [by apply checkpoint_sim|]. intros s7 s7' H7.
  simpl. by apply sim_emit.
Qed.

(** *** Claims about the optional success metric *)

Lemma events_since_app (st : state) (r : outcome state) (evs : list event) :
  trace (outcome_state r) = trace st ++ evs → events_since st r = evs.
Proof. intros H. unfold events_since. by rewrite H, drop_app_length. Qed.


(** *** Claims about the checkpoints *)

Lemma dumps_app (a b : list event) : dumps (a ++ b) = dumps a ++ dumps b.
Proof. apply omap_app. Qed.

Lemma dumps_nodump (evs : list event) :
  Forall (λ e, is_dump e = false) evs → dumps evs = [].
Proof.
  induction 1 as [|e evs He _ IH]; [done|].
  unfold dumps in *. simpl. destruct e; try done.
Qed.

Lemma emits_dumps (P : event → Prop) (st st' : state) :
  (∀ e, P e → is_dump e = false) →
  emits_only P st (Finished st') → dumps (trace st') = dumps (trace st).
Proof.
  intros HP (evs & Htr & Hevs). simpl in Htr.
  rewrite Htr, dumps_app, (dumps_nodump evs), app_nil_r; [done|].
  by eapply Forall_impl.
Qed.

Lemma outer_iteration_dumps (es : list path → option V) (outer_iter : Z)
    (st st' : state) :
  outer_iteration es job_data outer_iter st = Finished st' →
  dumps (trace st')
  = dumps (trace st)
    ++ (if (outer_iter >? 0) && (outer_iter `mod` save_freq job_data =? 0)
        then checkpoint_files job_data outer_iter else []).
Proof.
  rewrite outer_iteration_grouped.
  pose proof (collect_carries outer_iter st) as (Hc & _).
  destruct (collect outer_iter st) as [st1| |]; cbn [andthen]; [|done..].
  destruct (log_rollout_spec es st1) as (st2 & -> & _ & _ & evs2 & Ht2 & HP2).
  cbn [andthen].
  pose proof (middle_carries outer_iter st2) as (Hm & _).
  destruct (andthen (fit_models outer_iter st2) _) as [st3| |];
    cbn [andthen]; [|done..].
  destruct (evaluate_spec es st3) as (st4 & -> & _ & evs4 & Ht4 & HP4).
  cbn [andthen].
  assert (H4 : dumps (trace st4) = dumps (trace st)).
  { rewrite Ht4, dumps_app, (dumps_nodump evs4), app_nil_r; last first.
    { eapply Forall_impl; [exact HP4|]. by intros e [[? _]|[-> _]]. }
    rewrite (emits_dumps plain st2 st3) by (done || by intros e [? _]).
    rewrite Ht2, dumps_app, (dumps_nodump evs2), app_nil_r; last first.
    { eapply Forall_impl; [exact HP2|]. by intros e [[? _]|[-> _]]. }
    by apply (emits_dumps plain); [intros e [? _]|]. }
  unfold checkpoint, finish.
  destruct (outer_iter >? 0); cbn [andb].
  - destruct (save_freq job_data =? 0); [done|].
    destruct (_ =? 0); cbn [andthen]; intros [= <-]; simpl.
    + rewrite !dumps_app, H4. simpl. by rewrite app_nil_r.
    + rewrite !dumps_app, H4. simpl. done.
  - cbn [andthen]. intros [= <-]. simpl. rewrite !dumps_app, H4. done.
Qed.

Lemma iterations_dumps (es : list path → option V) (outer_iters : list Z)
    (st st' : state) :
  iterations es job_data outer_iters st = Finished st' →
  dumps (trace st')
  = dumps (trace st)
    ++ mjoin ((λ i, if (i >? 0) && (i `mod` save_freq job_data =? 0)
                    then checkpoint_files job_data i else [])
              <$> outer_iters).
Proof.
  revert st. induction outer_iters as [|i l IH]; intros st; simpl.
  - intros [= <-]. by rewrite app_nil_r.
  - destruct (outer_iteration es job_data i st) as [st1| |] eqn:E;
      cbn [andthen]; [|done..].
    intros H%IH. rewrite H, (outer_iteration_dumps es i st st1 E).
    by rewrite <- app_assoc.
Qed.

Lemma buffer_size_nonneg (ps : list path) :
  Forall (λ p, observations p ≠ []) ps → 0 ≤ buffer_size ps.
Proof.
  induction 1 as [|p ps Hp _ IH]; [done|].
  rewrite buffer_size_cons. destruct (observations p); [done|].
  simpl length. lia.
Qed.

Lemma collect_finishes (outer_iter : Z) (st : state) :
  good_sampler sample_data_batch job_data →
  ∃ st', collect outer_iter st = Finished st'.
Proof.
  intros Hgood. unfold Train.collect.
  specialize (Hgood (if outer_iter =? 0 then init_samples job_data
                     else iter_samples job_data)
                (SEED job_data + outer_iter) (world st)).
  destruct (sample_data_batch _ _ _) as [sampled w].
  simpl in Hgood. destruct Hgood as (Hne & Hobs & Hfit).
  set (st0 := {| paths := paths st; iter_paths := sampled |}).
  unfold ingest.
  destruct (append_paths_total sampled st0 Hobs) as [st1 Hst1].
  rewrite Hst1. cbn [andthen].
  apply append_paths_finished in Hst1 as (Hp1 & _).
  pose proof (buffer_size_nonneg sampled Hobs) as Hnn.
  destruct (evict_total (buffer_size_limit job_data) (paths st1)) as [kept Hk];
    [lia|].
  rewrite Hk. cbn [andthen paths].
  apply evict_spec in Hk as (_ & _ & Hmax).
  destruct kept as [|p kept]; [|by eexists].
  exfalso. specialize (Hmax sampled). rewrite Hp1 in Hmax.
  destruct sampled; [done|].
  assert (buffer_size_limit job_data < buffer_size (p :: sampled)); [|lia].
  apply Hmax; [by apply suffix_app_r|simpl; lia].
Qed.

Lemma outer_iteration_finishes (es : list path → option V) (outer_iter : Z)
    (st : state) :
  good_sampler sample_data_batch job_data → save_freq job_data ≠ 0 →
  ∃ st', outer_iteration es job_data outer_iter st = Finished st'.
Proof.
  intros Hgood Hsf. unfold Train.outer_iteration.
  destruct (collect_finishes outer_iter st Hgood) as [st1 ->].
  cbn [andthen]. unfold log_rollout, Train.fit_models, Train.refresh.
  cbn [andthen].
  destruct (refresh_policy job_data) as [[|]|]; cbn [andthen];
    unfold Train.npg_updates; cbn [andthen];
    unfold Train.evaluate;
    (destruct (eval_rollouts job_data >? 0);
     [destruct (evaluate_policy _ _)|]); cbn [andthen];
    unfold checkpoint; destruct (outer_iter >? 0);
    rewrite ?(proj2 (Z.eqb_neq _ _) Hsf);
    try destruct (_ `mod` _ =? 0); cbn [andthen]; by eexists.
Qed.

Lemma iterations_finish (es : list path → option V) (outer_iters : list Z)
    (st : state) :
  good_sampler sample_data_batch job_data → save_freq job_data ≠ 0 →
  ∃ st', iterations es job_data outer_iters st = Finished st'.
Proof.
  intros Hgood Hsf. revert st.
  induction outer_iters as [|i l IH]; intros st; simpl; [by eexists|].
  destruct (outer_iteration_finishes es i st Hgood Hsf) as [st1 ->].
  apply IH.
Qed.


End LoopFacts.

(** *** The preamble *)

Lemma lookup_setdefault (key key' : string) (v : pyval)
    (job_data : gmap string pyval) :
  setdefault key v job_data !! key'
  = if decide (key = key') then Some (default v (job_data !! key))
    else job_data !! key'.
Proof.
  unfold setdefault. destruct (job_data !! key) as [x|] eqn:E.
  - case_decide; [by subst|done].
  - rewrite lookup_insert. by case_decide.
Qed.

(** What the check of [start_state] sees: the configured value, or
    ['init']. *)
Lemma preamble_checks (job_data : gmap string pyval) (ENV_NAME seed : pyval) :
  job_data !! "env_name" = Some ENV_NAME →
  job_data !! "seed" = Some seed →
  (py_in (default (PStr "init") (job_data !! "start_state"))
     [PStr "init"; PStr "buffer"] = false
   ∧ preamble job_data = inl AssertionError)
  ∨ (py_in (default (PStr "init") (job_data !! "start_state"))
       [PStr "init"; PStr "buffer"] = true
     ∧ ∃ job_data',
         preamble job_data
         = inr (<["base_seed" := seed]> (delete "seed" job_data'),
                ENV_NAME, seed, [JsonDump job_data'])
         ∧ job_data' !! "start_state"
           = Some (default (PStr "init") (job_data !! "start_state"))).
Proof.
  intros Henv Hseed. unfold preamble. rewrite Henv, Hseed.
  set (jd := setdefault "replay_buffer_size" _ _).
  assert (Hss : jd !! "start_state"
                = Some (default (PStr "init") (job_data !! "start_state"))).
  { subst jd. rewrite !lookup_setdefault.
    repeat (case_decide; try done). }
  rewrite Hss. simpl default.
  destruct (py_in _ _) eqn:E; [right|left]; [|done].
  split; [done|]. by exists jd.
Qed.

Section MainFacts.
Context {Obs Act Rew V W : Type}.
Local Abbreviation path := (@path Obs Act Rew).
Local Abbreviation state := (@state Obs Act Rew W).

Variable sample_data_batch : Z → Z → W → list path * W.
Variable replay_store : list path → W → W.
Variable new_models : Z → W → W.
Variable compute_loss : nat → list path → Z → W → W.
Variable fit_dynamics : nat → list path → W → W.
Variable fit_reward : nat → list path → W → W.
Variable new_policy : W → W.
Variable train_step : Z → pyval → list Obs → list path → W → W.
Variable evaluate_policy : Z → W → list path * W.
Variable evaluate_success : list path → option V.

Local Abbreviation train :=
  (train sample_data_batch replay_store new_models compute_loss
     fit_dynamics fit_reward new_policy train_step evaluate_policy
     evaluate_success).
Local Abbreviation main :=
  (main sample_data_batch replay_store new_models compute_loss
     fit_dynamics fit_reward new_policy train_step evaluate_policy
     evaluate_success).

(** The loop never removes an event. *)
Lemma train_extends (job_data : job) (st : state) :
  trace st `prefix_of` trace (outcome_state (train job_data st)).
Proof.
  assert (Hit : ∀ l s,
            trace s `prefix_of`
              trace (outcome_state
                (iterations sample_data_batch replay_store new_models
                   compute_loss fit_dynamics fit_reward new_policy train_step
                   evaluate_policy evaluate_success job_data l s))).
  { induction l as [|i l IH]; intros s; simpl; [done|].
    destruct (outer_iteration_trace sample_data_batch replay_store
                new_models compute_loss fit_dynamics fit_reward new_policy
                train_step evaluate_policy job_data evaluate_success i s)
      as (_ & evs & Htr & _).
    destruct (Train.outer_iteration _ _ _ _ _ _ _ _ _ _ _ i s) as [s1| |];
      cbn [andthen outcome_state] in *; try by eexists.
    etrans; [|apply IH]. by eexists. }
  unfold Train.train. specialize (Hit (range (num_iter job_data)) st).
  destruct (iterations _ _ _ _ _ _ _ _ _ _ _ _ st) as [s1| |];
    cbn [andthen outcome_state] in *; try done.
  etrans; [exact Hit|]. simpl. by eexists.
Qed.


End MainFacts.

End TrainFacts.

(** ** The job-script claims on the small instance *)

Module ToyFacts.
Import Train Toy.
Open Scope Z_scope.

Lemma toy_good_sampler : good_sampler Toy.sample_data_batch job5.
Proof.
  intros num_samples base_seed w. simpl. split; [done|]. split.
  - by repeat constructor.
  - unfold buffer_size. simpl. lia.
Qed.




(** The events of that iteration: every phase after the two skipped
    metrics is there. *)
Lemma first_iteration_events :
  events_since (initial 0%nat)
    (Toy.outer_iteration raising job5 0 (initial 0%nat))
  = [SampleDataBatch 50 500; ReplayStore;
     LogKv "fit_epochs"; LogKv "rollout_score"; LogKv "iter_samples";
     ComputeLoss 0; FitDynamics 0; LogKv "dyn_loss_0"; LogKv "dyn_loss_gen_0";
     FitReward 0; LogKv "rew_loss_0";
     TrainStep 0; TrainStep 1;
     EvaluatePolicy 1; LogKv "eval_score";
     LogKv "iter_time"; SaveLog; MakeTrainPlots].
Proof. vm_compute. reflexivity. Qed.

(** With a callback that returns a metric, the two metrics are logged
    after [iter_samples] and after [eval_score]. *)
Lemma first_iteration_events_scoring :
  events_since (initial 0%nat)
    (Toy.outer_iteration scoring job5 0 (initial 0%nat))
  = [SampleDataBatch 50 500; ReplayStore;
     LogKv "fit_epochs"; LogKv "rollout_score"; LogKv "iter_samples";
     LogKv "rollout_metric";
     ComputeLoss 0; FitDynamics 0; LogKv "dyn_loss_0"; LogKv "dyn_loss_gen_0";
     FitReward 0; LogKv "rew_loss_0";
     TrainStep 0; TrainStep 1;
     EvaluatePolicy 1; LogKv "eval_score"; LogKv "eval_metric";
     LogKv "iter_time"; SaveLog; MakeTrainPlots].
Proof. vm_compute. reflexivity. Qed.


(** The complete configuration does run its two iterations. *)
Lemma config_buffer_runs :
  ∃ st', Toy.main "out" config_buffer 0%nat = Finished st'
         ∧ dumps (trace st')
           = ["out/agent_final.pickle"; "out/policy_final.pickle"].
Proof. eexists. split; vm_compute; reflexivity. Qed.

(** C9 on a window of two paths of two transitions each, a batch of one
    more and a ceiling of three transitions: only the new path stays. *)
Lemma path_window_bounded_witness :
  (∀ st', ingest job5 [path2] window = Finished st' →
      buffer_size (paths st') ≤ 3
      ∧ paths st' `suffix_of` ([path2; path2] ++ [path2])
      ∧ ∀ l, l `suffix_of` ([path2; path2] ++ [path2]) →
             (length (paths st') < length l)%nat → 3 < buffer_size l)
  ∧ ∃ st', ingest job5 [path2] window = Finished st' ∧ paths st' = [path2].
Proof.
  destruct (TrainFacts.path_window_bounded job5 [path2] window)
    as [Hbound Htotal].
  split; [exact Hbound|].
  destruct Htotal as [st' Hst']; [simpl; lia|by repeat constructor|].
  exists st'. split; [exact Hst'|].
  vm_compute in Hst'. by injection Hst' as <-.
Defined.

End ToyFacts.

(** ** More about the parameter storage *)

Section ParamsMore.
Context {T : Type}.
Variable to_float32 : T → T.
Variable lt : T → T → bool.

Local Abbreviation store := (gmap nat (list T)).
Local Abbreviation MLP := (@MLP T).
Local Abbreviation set_param_values := (set_param_values to_float32 lt).
Local Abbreviation set_new_params := (set_new_params to_float32 lt).
Local Abbreviation set_old_params := (set_old_params to_float32 lt).
Local Abbreviation assign_params := (assign_params to_float32).
Local Abbreviation clamp := (clamp to_float32 lt).
Local Abbreviation clamp_last := (clamp_last to_float32 lt).
Local Abbreviation stored := (stored to_float32 lt).

Lemma length_concat_sizes (ls : list (list T)) :
  length (concat ls) = sum_list (length <$> ls).
Proof.
  induction ls as [|l ls IH]; [done|].
  rewrite fmap_cons. simpl. rewrite length_app. lia.
Qed.

(** Two lists of blocks with the same sizes and the same concatenation. *)
Lemma concat_inj_sizes (ls ks : list (list T)) :
  length <$> ls = length <$> ks → concat ls = concat ks → ls = ks.
Proof.
  revert ks. induction ls as [|l ls IH]; intros [|k ks] Hlen Hcat; try done.
  rewrite !fmap_cons in Hlen. injection Hlen as Hl Hlen. simpl in Hcat.
  apply app_inj_1 in Hcat as [-> Hcat]; [|done].
  f_equal. by apply IH.
Qed.

(** The assignment loop on a vector that is too short: the blocks that
    fit are assigned, then [reshape] raises. *)
Lemma assign_params_short (sizes : list nat) (v : list T) (params : list nat) :
  ∀ idx cur σ,
    NoDup params →
    idx + length params = length sizes →
    cur ≤ length v →
    length v < cur + sum_list (drop idx sizes) →
    ∃ σ', assign_params params idx cur v sizes σ = Raise ValueError σ'
          ∧ (∀ q, q ∉ params → σ' !! q = σ !! q)
          ∧ ∀ j p, params !! j = Some p →
              cur + sum_list (take (S j) (drop idx sizes)) ≤ length v →
              data σ' p
              = to_float32 <$> slice v (cur + sum_list (take j (drop idx sizes)))
                                 (cur + sum_list (take (S j) (drop idx sizes))).
Proof.
  induction params as [|p rest IH]; intros idx cur σ Hnd Hlen Hcur Hv.
  - simpl in Hlen. rewrite drop_ge in Hv by lia. simpl in Hv. lia.
  - apply NoDup_cons in Hnd as [Hp Hnd]. rewrite length_cons in Hlen.
    destruct (lookup_lt_is_Some_2 sizes idx) as [sz Hsz]; [lia|].
    cbn [assign_params]. rewrite Hsz.
    erewrite drop_S in Hv |- * by done. simpl in Hv.
    assert (Hsl : slice v cur (cur + sz) = take sz (drop cur v)).
    { unfold slice. f_equal. lia. }
    destruct (decide (cur + sz ≤ length v)) as [Hfit|Hfit].
    + rewrite decide_True; last first.
      { rewrite Hsl, length_take, length_drop. lia. }
      destruct (IH (S idx) (cur + sz) (<[p := to_float32 <$> slice v cur (cur + sz)]> σ))
        as (σ' & Hrun & Hframe & Hpre); [done|lia|lia|lia|].
      exists σ'. split; [done|]. split.
      * intros q Hq. apply not_elem_of_cons in Hq as [Hqp Hq].
        rewrite Hframe by done. by rewrite lookup_insert_ne.
      * intros [|j] q Hq Hj; simpl in Hq, Hj |- *.
        -- injection Hq as <-. unfold data at 1. rewrite Hframe by done.
           rewrite lookup_insert_eq. simpl. f_equal. f_equal; lia.
        -- rewrite (Hpre j q Hq) by lia. f_equal. f_equal; lia.
    + rewrite decide_False; last first.
      { rewrite Hsl, length_take, length_drop. lia. }
      exists σ. split; [done|]. split; [done|].
      intros [|j] q Hq Hj; simpl in Hj; lia.
Qed.

(** Entries of the vector past the last offset are never read. *)
Lemma assign_params_take (sizes : list nat) (v : list T) (D : nat)
    (params : list nat) :
  ∀ idx cur σ,
    cur + sum_list (drop idx sizes) ≤ D →
    assign_params params idx cur (take D v) sizes σ
    = assign_params params idx cur v sizes σ.
Proof.
  induction params as [|p rest IH]; intros idx cur σ HD; [done|].
  cbn [assign_params]. destruct (sizes !! idx) as [sz|] eqn:Hsz; [|done].
  erewrite drop_S in HD by done. simpl in HD.
  assert (Hsl : slice (take D v) cur (cur + sz) = slice v cur (cur + sz)).
  { unfold slice. replace (cur + sz - cur) with sz by lia.
    replace D with (cur + (D - cur)) by lia.
    rewrite <- take_drop_commute, take_take. f_equal. lia. }
  rewrite Hsl. case_decide; [|done]. apply IH. lia.
Qed.

(** One pass over either parameter list of a well-formed policy, with
    the block that ends up in the last parameter. *)
Lemma pass_detail (self : MLP) (params front : list nat) (lastp : nat)
    (σ : store) (v : list T) :
  wf self → d self ≤ length v →
  params = front ++ [lastp] → NoDup params →
  length params = length (param_sizes self) →
  ∃ σ', bind (assign_params params 0 0 v (param_sizes self) σ)
             (clamp_last (min_log_std self) params) = Ok σ'
        ∧ concat (data σ' <$> params) = stored self v
        ∧ length <$> (data σ' <$> params) = param_sizes self
        ∧ data σ' lastp
          = clamp (min_log_std self)
              <$> (to_float32 <$> take (m self) (drop (d self - m self) v))
        ∧ ∀ q, q ∉ params → σ' !! q = σ !! q.
Proof.
  intros Hwf Hv Hp Hnd Hlen.
  destruct (pass_spec to_float32 lt self params front lastp σ v)
    as (σ' & Hrun & Hcat & Hsz & Hframe); [done..|].
  exists σ'. split; [done|]. split; [done|]. split; [done|]. split; [|done].
  subst params. pose proof (wf_d _ Hwf) as Hd.
  rewrite (wf_param_sizes _ Hwf) in Hlen, Hrun.
  set (fs := length <$> (data (tensors self) <$> model self)) in *.
  rewrite !length_app in Hlen. simpl in Hlen.
  destruct (assign_clamp_spec to_float32 lt (min_log_std self) v front lastp fs
              (m self) σ)
    as (σ'' & Hrun' & _ & Hlast & _); [done|lia|lia|].
  rewrite Hrun in Hrun'. injection Hrun' as <-.
  rewrite Hlast. by replace (d self - m self) with (sum_list fs) by lia.
Qed.

(** What a call of [set_param_values] on a vector that is long enough
    leaves behind, for each choice of its flags. *)
Lemma set_param_values_detail (self : MLP) (v : list T) (set_new set_old : bool) :
  wf self → d self ≤ length v →
  let L := clamp (min_log_std self)
             <$> (to_float32 <$> take (m self) (drop (d self - m self) v)) in
  ∃ self', set_param_values self v set_new set_old = Ok self'
    ∧ same_layout self self' ∧ wf self'
    ∧ (if set_new
       then get_param_values self' = stored self v
            ∧ data (tensors self') (log_std self') = L
            ∧ log_std_val self' = L
       else (∀ q, q ∈ trainable_params self →
                  tensors self' !! q = tensors self !! q)
            ∧ log_std_val self' = log_std_val self)
    ∧ (if set_old
       then get_old_param_values self' = stored self v
            ∧ length <$> (data (tensors self') <$> old_params self')
              = param_sizes self
            ∧ data (tensors self') (old_log_std self') = L
       else ∀ q, q ∈ old_params self →
                 tensors self' !! q = tensors self !! q).
Proof.
  intros Hwf Hv L.
  assert (Hnew : ∃ self1,
    (if set_new then set_new_params self v else Ok self) = Ok self1
    ∧ same_layout self self1 ∧ wf self1
    ∧ (if set_new
       then get_param_values self1 = stored self v
            ∧ data (tensors self1) (log_std self1) = L
            ∧ log_std_val self1 = L
       else (∀ q, q ∈ trainable_params self →
                  tensors self1 !! q = tensors self !! q)
            ∧ log_std_val self1 = log_std_val self)
    ∧ ∀ q, q ∈ old_params self → tensors self1 !! q = tensors self !! q).
  { destruct set_new.
    - destruct (pass_detail self (trainable_params self) (model self)
                  (log_std self) (tensors self) v)
        as (σ1 & Hrun & Hcat & Hsz & Hlast & Hframe);
        [done|done|apply Hwf|by apply wf_nodup_trainable| |].
      { rewrite <- (wf_sizes _ Hwf). by rewrite !length_fmap. }
      unfold set_new_params. rewrite Hrun. eexists. split; [done|].
      split; [by repeat split|]. split.
      { eapply wf_update; [done|by repeat split|done]. }
      split; [done|]. simpl. intros q Hq. apply Hframe.
      intros Hq'. by eapply wf_disjoint.
    - exists self. split; [done|]. split; [apply same_layout_refl|]. done. }
  destruct Hnew as (self1 & Hrun1 & Hl1 & Hwf1 & Hnew & Hframe1).
  unfold set_param_values. rewrite Hrun1. cbn [bind].
  pose proof Hl1 as (Hn & Hm & Hlo & Hmod & Hls & Htr & Hom & Hols & Hop & Hsz).
  assert (Hd : d self1 = d self) by (unfold d; by rewrite Hsz).
  destruct set_old.
  - destruct (pass_detail self1 (old_params self1) (old_model self1)
                (old_log_std self1) (tensors self1) v)
      as (σ2 & Hrun & Hcat & Hlen & Hlast & Hframe);
      [done|lia|apply Hwf1|by apply wf_nodup_old|apply Hwf1|].
    unfold set_old_params. rewrite Hrun. eexists. split; [done|].
    assert (Hkeep : ∀ q, q ∈ trainable_params self1 → σ2 !! q = tensors self1 !! q).
    { intros q Hq. apply Hframe. intros Hq'. by eapply (wf_disjoint self1). }
    split; [by repeat split|]. split.
    { eapply (wf_update self1); [done|by repeat split|]. cbn [tensors with_tensors].
      rewrite <- (wf_sizes _ Hwf1). f_equal. by apply data_fmap_ext. }
    cbn [tensors with_tensors log_std old_log_std old_params log_std_val
         trainable_params]. split.
    + destruct set_new.
      * destruct Hnew as (Hget & Hdata & Hval). split; [|split; [|done]].
        -- rewrite <- Hget. unfold get_param_values.
           cbn [tensors with_tensors trainable_params]. f_equal.
           by apply data_fmap_ext.
        -- rewrite <- Hdata. unfold data. f_equal. apply Hkeep.
           rewrite (wf_trainable _ Hwf1). apply elem_of_app. right.
           by apply list_elem_of_singleton.
      * destruct Hnew as (Hsame & Hval). split; [|done].
        intros q Hq. rewrite Hkeep by by rewrite Htr. by apply Hsame.
    + split; [|split].
      * unfold get_old_param_values. cbn [tensors with_tensors old_params].
        rewrite Hcat. by apply same_layout_stored.
      * by rewrite Hlen.
      * rewrite Hlast. subst L. by rewrite Hlo, Hm, Hd.
  - exists self1. split; [done|]. split; [done|]. split; [done|].
    split; [done|done].
Qed.

(** *** The constructor *)

Lemma data_map_seq_mid (l0 l1 l2 : list (list T)) :
  data (map_seq 0 (l0 ++ l1 ++ l2)) <$> seq (length l0) (length l1) = l1.
Proof.
  apply list_eq. intros i. rewrite list_lookup_fmap.
  destruct (decide (i < length l1)) as [Hi|Hi].
  - rewrite lookup_seq_lt by done. simpl. unfold data.
    rewrite lookup_map_seq_0, lookup_app_r by lia.
    replace (length l0 + i - length l0) with i by lia.
    rewrite lookup_app_l by done.
    destruct (lookup_lt_is_Some_2 l1 i Hi) as [x Hx]. by rewrite Hx.
  - rewrite lookup_seq_ge by lia. simpl.
    symmetry. apply lookup_ge_None. lia.
Qed.

(** The flat vector of a well-formed policy: the network's parameters,
    then the log-std. *)
Lemma get_param_values_split (self : MLP) :
  wf self →
  get_param_values self
  = concat (data (tensors self) <$> model self) ++ data (tensors self) (log_std self)
  ∧ length (concat (data (tensors self) <$> model self)) = d self - m self.
Proof.
  intros Hwf. split.
  - unfold get_param_values. rewrite (wf_trainable _ Hwf), fmap_app, concat_app.
    simpl. by rewrite app_nil_r.
  - rewrite length_concat_sizes, (wf_d _ Hwf). lia.
Qed.


(** X2.  [get_param_values] of a well-formed policy returns [d]
    entries; the last [m] of them are the log-std, the ones before are
    the network's parameters in order. *)
Theorem get_param_values_layout (self : MLP) :
  wf self →
  length (get_param_values self) = d self
  ∧ take (d self - m self) (get_param_values self)
    = concat (data (tensors self) <$> model self)
  ∧ drop (d self - m self) (get_param_values self)
    = data (tensors self) (log_std self).
Proof.
  intros Hwf. destruct (get_param_values_split self Hwf) as [Hget Hlen].
  pose proof (wf_d _ Hwf) as Hd. rewrite Hget. split; [|split].
  - rewrite length_app, Hlen, (wf_m _ Hwf). lia.
  - by rewrite take_app_length' by done.
  - by rewrite drop_app_length' by done.
Qed.

(** X3.  [set_param_values] on a vector with fewer than [d] entries
    raises [ValueError] (the [reshape] of the first block that does not
    fit), and it is not atomic: the trainable parameters whose blocks
    fit have been overwritten by then, without the clamp of the log-std.
    Nothing else changes: [log_std_val] and every tensor outside the
    trainable parameters, the old snapshot among them, are as before. *)
Theorem set_param_values_too_short (self : MLP) (v : list T) (set_old : bool) :
  wf self → length v < d self →
  ∃ self',
    set_param_values self v true set_old = Raise ValueError self'
    ∧ same_layout self self'
    ∧ log_std_val self' = log_std_val self
    ∧ get_old_param_values self' = get_old_param_values self
    ∧ (∀ q, q ∉ trainable_params self →
            tensors self' !! q = tensors self !! q)
    ∧ ∀ j p, trainable_params self !! j = Some p →
        sum_list (take (S j) (param_sizes self)) ≤ length v →
        data (tensors self') p
        = to_float32 <$> slice v (sum_list (take j (param_sizes self)))
                           (sum_list (take (S j) (param_sizes self))).
Proof.
  intros Hwf Hv.
  destruct (assign_params_short (param_sizes self) v (trainable_params self)
              0 0 (tensors self))
    as (σ' & Hrun & Hframe & Hpre);
    [by apply wf_nodup_trainable| |lia|by rewrite drop_0|].
  { rewrite <- (wf_sizes _ Hwf). by rewrite !length_fmap. }
  unfold set_param_values, set_new_params. rewrite Hrun. cbn [bind].
  eexists. split; [done|]. split; [by repeat split|]. split; [done|].
  split; [|split; [done|]].
  - unfold get_old_param_values. cbn [tensors with_tensors old_params]. f_equal.
    apply data_fmap_ext. intros q Hq. apply Hframe.
    intros Hq'. by eapply wf_disjoint.
  - intros j p Hp Hj. cbn [tensors with_tensors].
    specialize (Hpre j p Hp). rewrite drop_0 in Hpre. by apply Hpre.
Qed.

(** X4.  [set_param_values] reads the first [d] entries of the vector
    only: a call with a longer vector is the call with its first [d]
    entries, whatever the flags and whatever the outcome. *)
Theorem set_param_values_reads_prefix (self : MLP) (v : list T)
    (set_new set_old : bool) :
  set_param_values self (take (d self) v) set_new set_old
  = set_param_values self v set_new set_old.
Proof.
  assert (Hold : ∀ s, param_sizes s = param_sizes self →
            set_old_params s (take (d self) v) = set_old_params s v).
  { intros s Hs. unfold set_old_params.
    rewrite assign_params_take; [done|]. by rewrite drop_0, Hs. }
  unfold set_param_values. destruct set_new.
  - unfold set_new_params.
    rewrite assign_params_take by by rewrite drop_0.
    destruct (bind (assign_params _ _ _ _ _ _) _) as [σ|e σ]; cbn [bind];
      [|done].
    destruct set_old; [|done]. by apply Hold.
  - cbn [bind]. destruct set_old; [|done]. by apply Hold.
Qed.

(** X5.  After [set_param_values(v)] with both flags the old snapshot
    is an equal copy of the current one, tensor by tensor: the old
    network's parameters hold the data of the network's parameters,
    [old_log_std] holds the data of [log_std], and the two flat vectors
    agree. *)
Theorem set_param_values_snapshots_agree (self : MLP) (v : list T) :
  wf self → d self ≤ length v →
  ∃ self',
    set_param_values self v true true = Ok self'
    ∧ data (tensors self') <$> old_model self'
      = data (tensors self') <$> model self'
    ∧ data (tensors self') (old_log_std self')
      = data (tensors self') (log_std self')
    ∧ get_old_param_values self' = get_param_values self'.
Proof.
  intros Hwf Hv.
  destruct (set_param_values_detail self v true true Hwf Hv)
    as (self' & Hrun & Hlay & Hwf' & (Hget & Hls & _) & (Hold & Hlen & Hols)).
  exists self'. split; [done|].
  assert (Hblocks : data (tensors self') <$> old_params self'
                    = data (tensors self') <$> trainable_params self').
  { apply concat_inj_sizes.
    - rewrite Hlen, (wf_sizes _ Hwf'). symmetry. apply Hlay.
    - unfold get_old_param_values, get_param_values in Hold, Hget. congruence. }
  split; [|split].
  - rewrite (wf_old _ Hwf'), (wf_trainable _ Hwf'), !fmap_app in Hblocks.
    apply app_inj_2 in Hblocks as [H _]; done.
  - congruence.
  - congruence.
Qed.

(** X6.  [set_param_values] on a vector that is long enough succeeds
    for every choice of its flags and keeps the policy well formed: the
    parameter lists, the size table and the dimensions are unchanged,
    and [log_std_val] holds the data of [log_std] afterwards if it did
    before or if [set_new] is set. *)
Theorem set_param_values_invariants (self : MLP) (v : list T)
    (set_new set_old : bool) :
  wf self → d self ≤ length v →
  ∃ self',
    set_param_values self v set_new set_old = Ok self'
    ∧ wf self' ∧ same_layout self self'
    ∧ (synced self ∨ set_new = true → synced self').
Proof.
  intros Hwf Hv.
  destruct (set_param_values_detail self v set_new set_old Hwf Hv)
    as (self' & Hrun & Hlay & Hwf' & Hnew & _).
  exists self'. split; [done|]. split; [done|]. split; [done|].
  intros Hs. red. destruct set_new.
  - destruct Hnew as (_ & -> & ->). done.
  - destruct Hs as [Hs|]; [|done]. destruct Hnew as [Hsame ->].
    rewrite Hs. destruct Hlay as (_ & _ & _ & _ & -> & _).
    unfold data. f_equal. symmetry. apply Hsame.
    rewrite (wf_trainable _ Hwf). apply elem_of_app. right.
    by apply list_elem_of_singleton.
Qed.

(** X7.  The floor of the log-std.  When the converted [min_log_std]
    does not compare below itself (it is not on floats), no entry of a
    log-std tensor written by [set_param_values] compares below it:
    [log_std] and [log_std_val] after a call with [set_new],
    [old_log_std] after a call with [set_old]. *)
Theorem log_std_floor (self : MLP) (v : list T) (set_new set_old : bool) :
  wf self → d self ≤ length v →
  lt (to_float32 (min_log_std self)) (to_float32 (min_log_std self)) = false →
  let above x := lt x (to_float32 (min_log_std self)) = false in
  ∃ self',
    set_param_values self v set_new set_old = Ok self'
    ∧ (set_new = true →
       Forall above (data (tensors self') (log_std self'))
       ∧ Forall above (log_std_val self'))
    ∧ (set_old = true →
       Forall above (data (tensors self') (old_log_std self'))).
Proof.
  intros Hwf Hv Hirr above.
  assert (Hcl : ∀ l, Forall above (clamp (min_log_std self) <$> l)).
  { intros l. apply Forall_fmap, Forall_forall. intros x _. simpl.
    unfold above, clamp.
    by destruct (lt x (to_float32 (min_log_std self))) eqn:Hx. }
  destruct (set_param_values_detail self v set_new set_old Hwf Hv)
    as (self' & Hrun & _ & _ & Hnew & Hold).
  exists self'. split; [done|]. split.
  - intros ->. destruct Hnew as (_ & -> & ->). done.
  - intros ->. destruct Hold as (_ & _ & ->). done.
Qed.

End ParamsMore.

Module BinaryMore.
Import Binary.

Lemma get_param_values_layout_witness :
  length (get_param_values policy0) = d policy0
  ∧ take (d policy0 - m policy0) (get_param_values policy0)
    = concat (data (tensors policy0) <$> model policy0)
  ∧ drop (d policy0 - m policy0) (get_param_values policy0)
    = data (tensors policy0) (log_std policy0).
Proof. apply (get_param_values_layout policy0). apply init_wf. Defined.

(** X3 on a vector of three entries for the four of [policy0]: the two
    weight tensors are overwritten, the log-std is not reached. *)
Lemma set_param_values_too_short_witness :
  ∃ self',
    set_param_values to_float32 lt policy0 [zero; half; half] true true
    = Raise ValueError self'
    ∧ same_layout policy0 self'
    ∧ log_std_val self' = log_std_val policy0
    ∧ get_old_param_values self' = get_old_param_values policy0
    ∧ (∀ q, q ∉ trainable_params policy0 →
            tensors self' !! q = tensors policy0 !! q)
    ∧ ∀ j p, trainable_params policy0 !! j = Some p →
        sum_list (take (S j) (param_sizes policy0)) ≤ length [zero; half; half] →
        data (tensors self') p
        = to_float32 <$> slice [zero; half; half]
                           (sum_list (take j (param_sizes policy0)))
                           (sum_list (take (S j) (param_sizes policy0))).
Proof.
  apply (set_param_values_too_short to_float32 lt policy0 [zero; half; half] true).
  - apply init_wf.
  - vm_compute. lia.
Defined.

Lemma set_param_values_snapshots_agree_witness :
  ∃ self',
    set_param_values to_float32 lt policy0 v_exact true true = Ok self'
    ∧ data (tensors self') <$> old_model self'
      = data (tensors self') <$> model self'
    ∧ data (tensors self') (old_log_std self')
      = data (tensors self') (log_std self')
    ∧ get_old_param_values self' = get_param_values self'.
Proof.
  apply (set_param_values_snapshots_agree to_float32 lt policy0 v_exact).
  - apply init_wf.
  - vm_compute. lia.
Defined.

Lemma set_param_values_invariants_witness :
  ∃ self',
    set_param_values to_float32 lt policy0 v_exact false true = Ok self'
    ∧ wf self' ∧ same_layout policy0 self'
    ∧ (synced policy0 ∨ false = true → synced self').
Proof.
  apply (set_param_values_invariants to_float32 lt policy0 v_exact false true).
  - apply init_wf.
  - vm_compute. lia.
Defined.

Lemma log_std_floor_witness :
  let above x := lt x (to_float32 (min_log_std policy0)) = false in
  ∃ self',
    set_param_values to_float32 lt policy0 v_exact true true = Ok self'
    ∧ (true = true →
       Forall above (data (tensors self') (log_std self'))
       ∧ Forall above (log_std_val self'))
    ∧ (true = true →
       Forall above (data (tensors self') (old_log_std self'))).
Proof.
  apply (log_std_floor to_float32 lt policy0 v_exact true true).
  - apply init_wf.
  - vm_compute. lia.
  - reflexivity.
Defined.

End BinaryMore.

(** ** More about the density and the sampled action *)

Section DensityMore.
Open Scope R_scope.
Variable forward : list (list R) → list R → list R.

Local Abbreviation MLP := (@MLP R).
Local Abbreviation log_likelihood := (log_likelihood forward).
Local Abbreviation apply_model := (apply_model forward).
Local Abbreviation get_action := (get_action forward).
Local Abbreviation old_dist_info := (old_dist_info forward).
Local Abbreviation new_dist_info := (new_dist_info forward).

Lemma torch_sum_nonneg (t : list R) :
  Forall (λ x, 0 <= x) t → 0 <= torch_sum t.
Proof. induction 1 as [|x t Hx _ IH]; simpl; lra. Qed.

Lemma squares_nonneg (t : list R) : Forall (λ x, 0 <= x) ((λ x, x ^ 2) <$> t).
Proof. apply Forall_fmap, Forall_forall. intros x _. simpl. apply pow2_ge_0. Qed.

(** The standardised residual of the mean itself. *)
Lemma residual_mean (mu es : list R) :
  Forall (λ x, x = 0) ((λ x, x ^ 2) <$> zip_with Rdiv (zip_with Rminus mu mu) es).
Proof.
  revert es. induction mu as [|x mu IH]; intros [|e es]; cbn; try done.
  constructor; [|apply IH]. unfold Rdiv. ring.
Qed.



(** The residual of a sampled action, standardised, is the draw. *)
Lemma residual_sample (mean ls randn : list R) :
  length mean = length ls → length randn = length ls →
  zip_with Rdiv
    (zip_with Rminus (zip_with Rplus mean (zip_with Rmult (exp <$> ls) randn)) mean)
    (exp <$> ls)
  = randn.
Proof.
  revert mean randn.
  induction ls as [|l ls IH]; intros [|x mean] [|r randn] Hm Hr; try done.
  cbn. f_equal.
  - pose proof (exp_pos l). field. lra.
  - apply IH; simpl in *; lia.
Qed.


(** One sample of [mean_kl] between two infos with one log-std. *)
Lemma sample_kl_equal_std (ls : list R) :
  let row mu_old mu_new :=
    torch_sum
      (zip_with Rminus
         (zip_with Rplus
            (zip_with Rdiv
               (zip_with Rminus
                  (zip_with Rplus ((λ x, x ^ 2) <$> zip_with Rminus mu_old mu_new)
                     ((λ x, x ^ 2) <$> (exp <$> ls)))
                  ((λ x, x ^ 2) <$> (exp <$> ls)))
               ((λ s, 2 * s ^ 2 + 1e-8) <$> (exp <$> ls)))
            ls)
         ls) in
  ∀ mu_old mu_new, 0 <= row mu_old mu_new ∧ row mu_old mu_new = row mu_new mu_old.
Proof.
  intros row. subst row. unfold torch_sum.
  induction ls as [|l ls IH]; intros [|x mo] [|y mn];
    cbn [zip_with fmap list_fmap foldr]; try (split; [lra|done]).
  destruct (IH mo mn) as [Hpos Hsym]. rewrite <- Hsym.
  set (s := foldr Rplus 0 _) in *. split.
  - pose proof (pow2_ge_0 (exp l)) as He.
    pose proof (pow2_ge_0 (x - y)) as Hxy.
    assert (HD : 0 < 2 * exp l ^ 2 + 1e-8) by lra.
    apply Rinv_0_lt_compat in HD.
    assert (0 <= (x - y) ^ 2 * / (2 * exp l ^ 2 + 1e-8)).
    { apply Rmult_le_pos; lra. }
    unfold Rdiv. lra.
  - f_equal. unfold Rdiv. ring.
Qed.



End DensityMore.

Module LinearMore.
Import Linear Real.
Open Scope R_scope.



Lemma policy1_synced : synced policy1.
Proof. unfold synced. by rewrite LinearFacts.policy1_log_std. Qed.




End LinearMore.

(** ** More about the job script *)

Module TrainMore.
Import Train Run.
Open Scope Z_scope.

(** *** The preamble *)

Lemma setdefault_union (key : string) (v : pyval) (job_data : gmap string pyval) :
  setdefault key v job_data = job_data ∪ {[key := v]}.
Proof.
  apply map_eq. intros k. rewrite TrainFacts.lookup_setdefault, lookup_union.
  case_decide as Hk.
  - subst k. rewrite lookup_singleton_eq. by destruct (job_data !! key).
  - rewrite lookup_singleton_ne by done. by destruct (job_data !! k).
Qed.

Lemma defaults_unfold :
  defaults
  = {["eval_rollouts" := PInt 0]} ∪ ({["save_freq" := PInt 10]}
    ∪ ({["device" := PStr "cpu"]} ∪ ({["hvp_frac" := POther 0]}
    ∪ ({["start_state" := PStr "init"]} ∪ ({["learn_reward" := PBool true]}
    ∪ {["replay_buffer_size" := PInt 1000000]}))))).
Proof.
  unfold defaults. cbn [list_to_map foldr uncurry fst snd].
  rewrite !insert_union_singleton_l. by rewrite (right_id_L ∅ (∪)).
Qed.

(** X13.  The preamble, case by case.  A config without [env_name]
    raises [KeyError] for it, one with [env_name] and without [seed]
    raises [KeyError] for [seed], both before [start_state] is looked
    at.  Otherwise, when [start_state] is absent, ['init'] or
    ['buffer'], the job data that are dumped are the config laid over
    the defaults: a configured key keeps its value, the seven defaults
    fill in the missing ones; the dictionary the loop reads is the
    dumped one with [seed] removed and [base_seed] set to it. *)
Theorem preamble_outcome (config : gmap string pyval) :
  (config !! "env_name" = None → preamble config = inl (KeyError "env_name"))
  ∧ (is_Some (config !! "env_name") → config !! "seed" = None →
     preamble config = inl (KeyError "seed"))
  ∧ (∀ ENV_NAME seed,
       config !! "env_name" = Some ENV_NAME → config !! "seed" = Some seed →
       py_in (default (PStr "init") (config !! "start_state"))
         [PStr "init"; PStr "buffer"] = true →
       let dumped := config ∪ defaults in
       let job_data := <["base_seed" := seed]> (delete "seed" dumped) in
       preamble config = inr (job_data, ENV_NAME, seed, [JsonDump dumped])
       ∧ (∀ key v, config !! key = Some v → dumped !! key = Some v)
       ∧ (∀ key, config !! key = None → dumped !! key = defaults !! key)
       ∧ job_data !! "seed" = None
       ∧ job_data !! "base_seed" = Some seed).
Proof.
  split; [|split].
  - intros Henv. unfold preamble. by rewrite Henv.
  - intros [ENV_NAME Henv] Hseed. unfold preamble. by rewrite Henv, Hseed.
  - intros ENV_NAME seed Henv Hseed Hss dumped job_data.
    split; [|split; [|split; [|split]]].
    + unfold preamble. rewrite Henv, Hseed.
      rewrite !setdefault_union, <- !(assoc_L (∪)), <- defaults_unfold.
      fold dumped.
      assert (Hd : dumped !! "start_state"
                   = Some (default (PStr "init") (config !! "start_state"))).
      { subst dumped. rewrite lookup_union.
        by destruct (config !! "start_state"). }
      rewrite Hd. simpl default. by rewrite Hss.
    + intros key v Hkey. subst dumped. rewrite lookup_union, Hkey.
      by destruct (defaults !! key).
    + intros key Hkey. subst dumped. rewrite lookup_union, Hkey.
      by destruct (defaults !! key).
    + subst job_data. rewrite lookup_insert_ne by done. apply lookup_delete_eq.
    + subst job_data. apply lookup_insert_eq.
Qed.

Section LoopMore.
Context {Obs Act Rew V W : Type}.
Local Abbreviation path := (@path Obs Act Rew).
Local Abbreviation state := (@state Obs Act Rew W).

Variable sample_data_batch : Z → Z → W → list path * W.
Variable replay_store : list path → W → W.
Variable new_models : Z → W → W.
Variable compute_loss : nat → list path → Z → W → W.
Variable fit_dynamics : nat → list path → W → W.
Variable fit_reward : nat → list path → W → W.
Variable new_policy : W → W.
Variable train_step : Z → pyval → list Obs → list path → W → W.
Variable evaluate_policy : Z → W → list path * W.
Variable job_data : job.

Local Abbreviation collect := (collect sample_data_batch replay_store job_data).
Local Abbreviation fit_model :=
  (fit_model compute_loss fit_dynamics fit_reward job_data).
Local Abbreviation fit_models :=
  (fit_models new_models compute_loss fit_dynamics fit_reward job_data).
Local Abbreviation refresh := (refresh new_policy job_data).
Local Abbreviation npg_updates := (npg_updates train_step job_data).
Local Abbreviation evaluate := (evaluate evaluate_policy).
Local Abbreviation outer_iteration :=
  (outer_iteration sample_data_batch replay_store new_models compute_loss
     fit_dynamics fit_reward new_policy train_step evaluate_policy).
Local Abbreviation iterations :=
  (iterations sample_data_batch replay_store new_models compute_loss
     fit_dynamics fit_reward new_policy train_step evaluate_policy).
Local Abbreviation train :=
  (train sample_data_batch replay_store new_models compute_loss
     fit_dynamics fit_reward new_policy train_step evaluate_policy).

(** *** The path window *)

Lemma buffer_size_app (ps qs : list path) :
  buffer_size (ps ++ qs) = buffer_size ps + buffer_size qs.
Proof.
  induction ps as [|p ps IH]; [done|].
  rewrite <- app_comm_cons, !TrainFacts.buffer_size_cons, IH. lia.
Qed.

(** Under a negative ceiling the eviction loop does not end. *)
Lemma evict_diverges (limit : Z) (ps : list path) :
  limit < 0 → Forall (λ p, observations p ≠ []) ps → evict limit ps = None.
Proof.
  intros Hlimit. induction 1 as [|p ps Hp Hps IH].
  - by apply TrainFacts.evict_negative.
  - pose proof (TrainFacts.buffer_size_nonneg (p :: ps)) as Hnn.
    cbn [evict]. rewrite (proj2 (Z.gtb_gt _ _)); [done|].
    assert (0 ≤ buffer_size (p :: ps)) by by apply Hnn; constructor.
    lia.
Qed.

(** A last path that exceeds the ceiling by itself empties the window. *)
Lemma evict_all (limit : Z) (ps : list path) (p : path) :
  0 ≤ limit → limit < Z.of_nat (length (observations p)) - 1 →
  Forall (λ p, observations p ≠ []) ps →
  evict limit (ps ++ [p]) = Some [].
Proof.
  intros Hlimit Hp. induction 1 as [|q ps Hq Hps IH].
  - cbn [app evict]. rewrite TrainFacts.buffer_size_cons.
    rewrite (proj2 (Z.gtb_gt _ _)) by (unfold buffer_size; simpl; lia).
    replace (buffer_size [] >? limit) with false; [done|].
    symmetry. rewrite Z.gtb_ltb. apply Z.ltb_ge. unfold buffer_size. simpl. lia.
  - rewrite <- app_comm_cons. cbn [evict]. rewrite (proj2 (Z.gtb_gt _ _)); [done|].
    pose proof (TrainFacts.buffer_size_nonneg ps Hps) as Hnn.
    assert (Hb : buffer_size [p] = Z.of_nat (length (observations p)) - 1)
      by (unfold buffer_size; simpl; lia).
    rewrite TrainFacts.buffer_size_cons, buffer_size_app, Hb.
    destruct (observations q); [done|]. simpl length. lia.
Qed.

Lemma first_observations_app (ps qs : list path) :
  first_observations (ps ++ qs) = first_observations ps ++ first_observations qs.
Proof. apply omap_app. Qed.

Lemma first_observations_length (ps : list path) :
  Forall (λ p, observations p ≠ []) ps →
  length (first_observations ps) = length ps.
Proof.
  induction 1 as [|p ps Hp _ IH]; [done|].
  destruct (observations p) as [|o obs] eqn:E; [done|].
  unfold first_observations. cbn. rewrite E. cbn. f_equal. exact IH.
Qed.

(** The append loop on paths that all have an observation. *)
Lemma append_paths_spec (sampled : list path) (st : state) :
  Forall (λ p, observations p ≠ []) sampled →
  append_paths sampled st
  = Finished {| paths := paths st ++ sampled;
                init_states_buffer :=
                  init_states_buffer st ++ first_observations sampled;
                iter_paths := iter_paths st; eval_paths := eval_paths st;
                world := world st; trace := trace st |}.
Proof.
  intros H. revert st. induction H as [|p ps Hp _ IH]; intros st.
  - simpl. rewrite !app_nil_r. by destruct st.
  - cbn [append_paths]. destruct (observations p) as [|o obs] eqn:E; [done|].
    rewrite IH. unfold first_observations. cbn. rewrite E. cbn.
    f_equal. f_equal; by rewrite <- app_assoc.
Qed.

(** The append loop up to a path without observation. *)
Lemma append_paths_raises (good rest : list path) (p : path) (st : state) :
  Forall (λ p, observations p ≠ []) good → observations p = [] →
  append_paths (good ++ p :: rest) st
  = Failed IndexError
      {| paths := paths st ++ good ++ [p];
         init_states_buffer := init_states_buffer st ++ first_observations good;
         iter_paths := iter_paths st; eval_paths := eval_paths st;
         world := world st; trace := trace st |}.
Proof.
  intros H Hp. revert st. induction H as [|q qs Hq _ IH]; intros st.
  - cbn [app append_paths]. rewrite Hp. cbn. by rewrite app_nil_r.
  - rewrite <- app_comm_cons. cbn [append_paths].
    destruct (observations q) as [|o obs] eqn:E; [done|].
    rewrite IH. unfold first_observations. cbn. rewrite E. cbn.
    f_equal. f_equal; by rewrite <- app_assoc.
Qed.

(** The invariant of the window: every path in it has an observation. *)
Lemma suffix_has_observation (kept ps : list path) :
  kept `suffix_of` ps → Forall (λ p, observations p ≠ []) ps →
  Forall (λ p, observations p ≠ []) kept.
Proof. intros [k ->] H. by apply Forall_app in H as [_ ?]. Qed.

Lemma append_paths_has_observation (sampled : list path) (st st' : state) :
  append_paths sampled st = Finished st' →
  Forall (λ p, observations p ≠ []) sampled.
Proof.
  revert st. induction sampled as [|p ps IH]; intros st; [done|].
  cbn [append_paths]. destruct (observations p) as [|o obs] eqn:E; [done|].
  intros H%IH. constructor; [by rewrite E|done].
Qed.

(** What [collect] leaves when it completes. *)
Lemma collect_finished (outer_iter : Z) (st st' : state) (sampled : list path)
    (w : W) :
  sample_data_batch
    (if outer_iter =? 0 then init_samples job_data else iter_samples job_data)
    (SEED job_data + outer_iter) (world st) = (sampled, w) →
  collect outer_iter st = Finished st' →
  Forall (λ p, observations p ≠ []) sampled
  ∧ paths st' ≠ []
  ∧ paths st' `suffix_of` (paths st ++ sampled)
  ∧ init_states_buffer st'
    = init_states_buffer st ++ first_observations sampled
  ∧ iter_paths st' = sampled
  ∧ eval_paths st' = eval_paths st
  ∧ world st' = replay_store (paths st') w
  ∧ trace st'
    = trace st
      ++ [SampleDataBatch
            (if outer_iter =? 0 then init_samples job_data
             else iter_samples job_data)
            (SEED job_data + outer_iter);
          ReplayStore].
Proof.
  intros Hs. unfold Train.collect. rewrite Hs. unfold ingest.
  destruct (append_paths sampled _) as [st1| |] eqn:E; cbn [andthen]; [|done..].
  pose proof (append_paths_has_observation _ _ _ E) as Hobs.
  rewrite (append_paths_spec _ _ Hobs) in E. injection E as <-.
  cbn [paths]. destruct (evict _ _) as [kept|] eqn:Hev; cbn [andthen]; [|done].
  apply TrainFacts.evict_spec in Hev as (_ & Hsuf & _).
  cbn [paths]. destruct kept as [|p kept]; [done|].
  intros [= <-]. cbn. rewrite <- app_assoc. done.
Qed.

(** X14.  When the data collection of an iteration completes, the
    window is not empty and ends with the newest sampled path, the
    batch is kept as [iter_paths], and [init_states_buffer] has gained
    the first observation of every sampled path, one per path: the
    eviction that trims the window never removes an initial state. *)
Theorem collect_postcondition (outer_iter : Z) (st st' : state)
    (sampled : list path) (w : W) :
  sample_data_batch
    (if outer_iter =? 0 then init_samples job_data else iter_samples job_data)
    (SEED job_data + outer_iter) (world st) = (sampled, w) →
  collect outer_iter st = Finished st' →
  paths st' ≠ []
  ∧ (sampled ≠ [] → last (paths st') = last sampled)
  ∧ iter_paths st' = sampled
  ∧ init_states_buffer st'
    = init_states_buffer st ++ first_observations sampled
  ∧ length (init_states_buffer st')
    = (length (init_states_buffer st) + length sampled)%nat
  ∧ (Forall (λ p, observations p ≠ []) (paths st) →
     Forall (λ p, observations p ≠ []) (paths st')).
Proof.
  intros Hs Hc.
  destruct (collect_finished outer_iter st st' sampled w Hs Hc)
    as (Hobs & Hne & Hsuf & Hinit & Hiter & _).
  split; [done|]. split; [|split; [done|split; [done|split]]].
  - intros Hsampled. destruct Hsuf as [k Hk].
    assert (Hl : last (paths st ++ sampled) = last sampled).
    { rewrite last_app. destruct (last sampled) eqn:E; [done|].
      by apply last_None in E. }
    rewrite <- Hl, Hk, last_app. destruct (last (paths st')) eqn:E; [done|].
    by apply last_None in E.
  - by rewrite Hinit, length_app, first_observations_length.
  - intros Hwin. eapply suffix_has_observation; [exact Hsuf|].
    by apply Forall_app.
Qed.

(** X15.  A sampled path without observations stops the collection
    with [IndexError] ([p['observations'][0]]): the paths before it
    are in the window with their initial states, the path itself has
    been appended to the window too, the window has not been trimmed,
    and nothing was stored in the replay buffer. *)
Theorem collect_index_error (outer_iter : Z) (st : state)
    (good rest : list path) (p : path) (w : W) :
  sample_data_batch
    (if outer_iter =? 0 then init_samples job_data else iter_samples job_data)
    (SEED job_data + outer_iter) (world st) = (good ++ p :: rest, w) →
  Forall (λ p, observations p ≠ []) good →
  observations p = [] →
  ∃ st', collect outer_iter st = Failed IndexError st'
    ∧ paths st' = paths st ++ good ++ [p]
    ∧ init_states_buffer st'
      = init_states_buffer st ++ first_observations good
    ∧ world st' = w
    ∧ ReplayStore ∉ drop (length (trace st)) (trace st').
Proof.
  intros Hs Hgood Hp. unfold Train.collect. rewrite Hs. unfold ingest.
  rewrite (append_paths_raises good rest p _ Hgood Hp). cbn [andthen].
  eexists. split; [done|]. cbn. split; [done|]. split; [done|]. split; [done|].
  rewrite drop_app_length. intros H. apply list_elem_of_singleton in H. done.
Qed.

(** X16.  With a negative [buffer_size] the eviction loop of the
    collection never ends: it empties the window and then keeps
    deleting from the empty list, whose size 0 still exceeds the
    ceiling. *)
Theorem collect_negative_ceiling (outer_iter : Z) (st : state)
    (sampled : list path) (w : W) :
  sample_data_batch
    (if outer_iter =? 0 then init_samples job_data else iter_samples job_data)
    (SEED job_data + outer_iter) (world st) = (sampled, w) →
  buffer_size_limit job_data < 0 →
  Forall (λ p, observations p ≠ []) (paths st) →
  Forall (λ p, observations p ≠ []) sampled →
  ∃ st', collect outer_iter st = Diverged st'
    ∧ ReplayStore ∉ drop (length (trace st)) (trace st').
Proof.
  intros Hs Hlimit Hwin Hobs. unfold Train.collect. rewrite Hs. unfold ingest.
  rewrite (append_paths_spec _ _ Hobs). cbn [andthen paths].
  rewrite evict_diverges; [|done|by apply Forall_app].
  eexists. split; [done|]. cbn.
  rewrite drop_app_length. intros H. apply list_elem_of_singleton in H. done.
Qed.

(** X17.  A newest path with more transitions than [buffer_size]
    allows makes the eviction empty the window, and the collection
    raises [ValueError] ([np.concatenate] of no array); the initial
    states of the batch have been recorded by then, and nothing was
    stored in the replay buffer. *)
Theorem collect_oversized_path (outer_iter : Z) (st : state)
    (sampled : list path) (p : path) (w : W) :
  sample_data_batch
    (if outer_iter =? 0 then init_samples job_data else iter_samples job_data)
    (SEED job_data + outer_iter) (world st) = (sampled ++ [p], w) →
  0 ≤ buffer_size_limit job_data →
  buffer_size_limit job_data < Z.of_nat (length (observations p)) - 1 →
  Forall (λ p, observations p ≠ []) (paths st) →
  Forall (λ p, observations p ≠ []) sampled →
  ∃ st', collect outer_iter st = Failed ValueError st'
    ∧ paths st' = []
    ∧ init_states_buffer st'
      = init_states_buffer st ++ first_observations (sampled ++ [p])
    ∧ ReplayStore ∉ drop (length (trace st)) (trace st').
Proof.
  intros Hs Hlimit Hp Hwin Hobs. unfold Train.collect. rewrite Hs. unfold ingest.
  assert (Hpobs : observations p ≠ []).
  { intros E. rewrite E in Hp. simpl in Hp. lia. }
  rewrite append_paths_spec by (apply Forall_app; split; [done|by constructor]).
  cbn [andthen paths]. rewrite app_assoc.
  rewrite evict_all; [|done|done|by apply Forall_app].
  cbn [andthen paths]. eexists. split; [done|]. cbn.
  split; [done|]. split; [done|].
  rewrite drop_app_length. intros H. apply list_elem_of_singleton in H. done.
Qed.

(** *** The actions of a run *)

Lemma actions_app (a b : list event) : actions (a ++ b) = actions a ++ actions b.
Proof. apply omap_app. Qed.

Lemma fit_model_actions (samples : Z) (i : nat) (st : state) :
  actions (trace (fit_model samples i st))
  = actions (trace st) ++ model_actions job_data i.
Proof.
  unfold Train.fit_model, model_actions. cbv zeta.
  destruct (learn_reward job_data); cbn [trace emit call];
    rewrite !actions_app; cbn; by rewrite <- ?app_assoc, ?app_nil_r.
Qed.

Lemma foldl_actions {A : Type} (f : state → A → state) (g : A → list event)
    (l : list A) (st : state) :
  (∀ s a, actions (trace (f s a)) = actions (trace s) ++ g a) →
  actions (trace (foldl f st l)) = actions (trace st) ++ mjoin (g <$> l).
Proof.
  intros Hf. revert st. induction l as [|a l IH]; intros st; simpl.
  - by rewrite app_nil_r.
  - by rewrite IH, Hf, <- app_assoc.
Qed.

Lemma mjoin_singletons {A B : Type} (f : A → B) (l : list A) :
  mjoin ((λ a, [f a]) <$> l) = f <$> l.
Proof.
  induction l as [|a l IH]; [done|].
  simpl. f_equal. exact IH.
Qed.

(** An iteration whose collection completes arrives at its checkpoint,
    having done the work of the iteration. *)
Lemma outer_iteration_work (es : list path → option V) (outer_iter : Z)
    (st st1 : state) :
  collect outer_iter st = Finished st1 →
  ∃ st4, outer_iteration es job_data outer_iter st
         = andthen (checkpoint job_data outer_iter st4) finish
         ∧ actions (trace st4)
           = actions (trace st) ++ work_actions job_data outer_iter.
Proof.
  intros Hc. unfold Train.outer_iteration. rewrite Hc. cbn [andthen].
  destruct (sample_data_batch
              (if outer_iter =? 0 then init_samples job_data
               else iter_samples job_data)
              (SEED job_data + outer_iter) (world st)) as [sampled w] eqn:Hs.
  destruct (collect_finished outer_iter st st1 sampled w Hs Hc)
    as (_ & _ & _ & _ & _ & _ & _ & Ht1).
  (* the rollout log *)
  assert (H2 : ∃ st2, log_rollout es st1 = Finished st2
                      ∧ actions (trace st2) = actions (trace st1)).
  { unfold log_rollout, try_log_success. cbv zeta.
    destruct (es _); eexists; (split; [done|]); cbn [trace emit];
      rewrite !actions_app; cbn; by rewrite ?app_nil_r. }
  destruct H2 as (st2 & -> & Ht2). cbn [andthen].
  (* the models *)
  assert (H3 : ∃ st3, fit_models outer_iter st2 = Finished st3
      ∧ actions (trace st3)
        = actions (trace st2)
          ++ (if refresh_fit job_data
              then [NewModels (SEED job_data + 123 * outer_iter)] else [])
          ++ mjoin (model_actions job_data
                      <$> seq 0 (Z.to_nat (num_models job_data)))).
  { unfold Train.fit_models. cbv zeta. eexists. split; [done|].
    rewrite (foldl_actions _ (model_actions job_data))
      by (intros s i; apply fit_model_actions).
    destruct (refresh_fit job_data); cbn [trace emit call].
    - by rewrite actions_app, <- app_assoc.
    - done. }
  destruct H3 as (st3 & -> & Ht3). cbn [andthen].
  (* the policy *)
  assert (H3' : ∃ st3', refresh st3 = Finished st3'
      ∧ actions (trace st3')
        = actions (trace st3)
          ++ match refresh_policy job_data with
             | Some true => [NewPolicy] | _ => [] end).
  { unfold Train.refresh. destruct (refresh_policy job_data) as [[|]|];
      eexists; (split; [done|]); cbn [trace emit call];
      rewrite ?actions_app; cbn; by rewrite ?app_nil_r. }
  destruct H3' as (st3' & -> & Ht3'). cbn [andthen].
  (* the inner steps *)
  assert (H4 : ∃ st4, npg_updates st3' = Finished st4
      ∧ actions (trace st4)
        = actions (trace st3') ++ (TrainStep <$> range (inner_steps job_data))).
  { unfold Train.npg_updates. eexists. split; [done|].
    rewrite (foldl_actions _ (λ i, [TrainStep i])).
    - by rewrite mjoin_singletons.
    - intros s i. cbn [trace emit call]. by rewrite actions_app. }
  destruct H4 as (st4 & -> & Ht4). cbn [andthen].
  (* the evaluation *)
  assert (H5 : ∃ st5, evaluate es job_data st4 = Finished st5
      ∧ actions (trace st5)
        = actions (trace st4)
          ++ (if eval_rollouts job_data >? 0
              then [EvaluatePolicy (eval_rollouts job_data)] else [])).
  { unfold Train.evaluate, try_log_success.
    destruct (eval_rollouts job_data >? 0).
    - destruct (evaluate_policy _ _) as [evaluated w']. cbn [eval_paths].
      destruct (es evaluated); eexists; (split; [done|]); cbn [trace emit];
        rewrite !actions_app; cbn; by rewrite ?app_nil_r.
    - eexists. split; [done|]. cbn [trace]. by rewrite app_nil_r. }
  destruct H5 as (st5 & -> & Ht5). cbn [andthen].
  exists st5. split; [done|].
  rewrite Ht5, Ht4, Ht3', Ht3, Ht2, Ht1, actions_app. unfold work_actions.
  cbn [actions omap list_omap]. by rewrite <- !app_assoc.
Qed.

Lemma outer_iteration_actions (es : list path → option V) (outer_iter : Z)
    (st st' : state) :
  outer_iteration es job_data outer_iter st = Finished st' →
  actions (trace st')
  = actions (trace st) ++ iteration_actions job_data outer_iter.
Proof.
  destruct (collect outer_iter st) as [st1| |] eqn:Hc.
  - destruct (outer_iteration_work es outer_iter st st1 Hc) as (st4 & -> & Ht4).
    unfold iteration_actions, checkpoint_actions, checkpoint, finish.
    destruct (outer_iter >? 0); cbn [andb].
    + destruct (save_freq job_data =? 0); [done|].
      destruct (_ =? 0); cbn [andthen]; intros [= <-]; cbn [trace emit];
        rewrite !actions_app, Ht4; cbn [actions omap list_omap];
        by rewrite <- ?app_assoc.
    + cbn [andthen]. intros [= <-]. cbn [trace emit].
      rewrite !actions_app, Ht4. cbn [actions omap list_omap].
      by rewrite <- ?app_assoc.
  - unfold Train.outer_iteration. by rewrite Hc.
  - unfold Train.outer_iteration. by rewrite Hc.
Qed.

Lemma iterations_actions (es : list path → option V) (outer_iters : list Z)
    (st st' : state) :
  iterations es job_data outer_iters st = Finished st' →
  actions (trace st')
  = actions (trace st) ++ mjoin (iteration_actions job_data <$> outer_iters).
Proof.
  revert st. induction outer_iters as [|i l IH]; intros st; simpl.
  - intros [= <-]. by rewrite app_nil_r.
  - destruct (outer_iteration es job_data i st) as [st1| |] eqn:E;
      cbn [andthen]; [|done..].
    intros H%IH. rewrite H, (outer_iteration_actions es i st st1 E).
    by rewrite <- app_assoc.
Qed.

(** *** Views of a completed run *)

Lemma omap_actions {A : Type} (f : event → option A) (evs : list event) :
  (∀ key, f (LogKv key) = None) → omap f evs = omap f (actions evs).
Proof.
  intros Hf. induction evs as [|e evs IH]; [done|].
  unfold actions in *. destruct e; cbn; rewrite ?Hf, ?IH; try done;
    cbn; by destruct (f _).
Qed.

Lemma omap_mjoin_fmap {A B C : Type} (f : B → option C) (g : A → list B)
    (l : list A) :
  omap f (mjoin (g <$> l)) = mjoin ((λ a, omap f (g a)) <$> l).
Proof.
  induction l as [|a l IH]; [done|].
  simpl. rewrite omap_app. f_equal. exact IH.
Qed.

Lemma omap_fmap_compose {A B C : Type} (f : B → option C) (g : A → B)
    (l : list A) :
  omap f (g <$> l) = omap (f ∘ g) l.
Proof.
  induction l as [|a l IH]; [done|].
  rewrite fmap_cons. cbn. rewrite IH. done.
Qed.

Lemma omap_all_none {A B : Type} (f : A → option B) (l : list A) :
  (∀ a, f a = None) → omap f l = [].
Proof. intros Hf. induction l as [|a l IH]; [done|]. cbn. by rewrite Hf. Qed.

Lemma omap_all_some {A : Type} (l : list A) : omap Some l = l.
Proof. induction l as [|a l IH]; [done|]. cbn. by rewrite IH. Qed.

Lemma mjoin_all_nil {A B : Type} (g : A → list B) (l : list A) :
  (∀ a, g a = []) → mjoin (g <$> l) = [].
Proof.
  intros Hg. induction l as [|a l IH]; [done|].
  simpl. rewrite Hg. exact IH.
Qed.

Lemma mjoin_const_length {A B : Type} (x : list B) (l : list A) :
  length (mjoin ((λ _, x) <$> l)) = (length l * length x)%nat.
Proof.
  induction l as [|a l IH]; [done|].
  simpl. rewrite length_app. f_equal. exact IH.
Qed.

(** A view of the work of one iteration, piece by piece. *)
Lemma work_view {A : Type} (f : event → option A) (outer_iter : Z) :
  omap f (work_actions job_data outer_iter)
  = omap f [SampleDataBatch
              (if outer_iter =? 0 then init_samples job_data
               else iter_samples job_data)
              (SEED job_data + outer_iter);
            ReplayStore]
    ++ omap f (if refresh_fit job_data
               then [NewModels (SEED job_data + 123 * outer_iter)] else [])
    ++ mjoin ((λ i, omap f (model_actions job_data i))
                <$> seq 0 (Z.to_nat (num_models job_data)))
    ++ omap f match refresh_policy job_data with
              | Some true => [NewPolicy] | _ => [] end
    ++ omap (f ∘ TrainStep) (range (inner_steps job_data))
    ++ omap f (if eval_rollouts job_data >? 0
               then [EvaluatePolicy (eval_rollouts job_data)] else []).
Proof.
  unfold work_actions.
  by rewrite !omap_app, omap_mjoin_fmap, omap_fmap_compose.
Qed.

(** A view of the actions of one iteration, piece by piece. *)
Lemma iteration_view {A : Type} (f : event → option A) (outer_iter : Z) :
  omap f (iteration_actions job_data outer_iter)
  = omap f [SampleDataBatch
              (if outer_iter =? 0 then init_samples job_data
               else iter_samples job_data)
              (SEED job_data + outer_iter);
            ReplayStore]
    ++ omap f (if refresh_fit job_data
               then [NewModels (SEED job_data + 123 * outer_iter)] else [])
    ++ mjoin ((λ i, omap f (model_actions job_data i))
                <$> seq 0 (Z.to_nat (num_models job_data)))
    ++ omap f match refresh_policy job_data with
              | Some true => [NewPolicy] | _ => [] end
    ++ omap (f ∘ TrainStep) (range (inner_steps job_data))
    ++ omap f (if eval_rollouts job_data >? 0
               then [EvaluatePolicy (eval_rollouts job_data)] else [])
    ++ omap f (checkpoint_actions job_data outer_iter)
    ++ omap f [SaveLog; MakeTrainPlots].
Proof.
  unfold iteration_actions. rewrite !omap_app, work_view.
  by rewrite <- !app_assoc.
Qed.

(** A view that does not see the logger, on a completed run. *)
Lemma train_view_all {A : Type} (f : event → option A)
    (es : list path → option V) (st st' : state) :
  (∀ key, f (LogKv key) = None) →
  train es job_data st = Finished st' →
  omap f (trace st')
  = omap f (trace st)
    ++ mjoin ((λ i, omap f (iteration_actions job_data i))
                <$> range (num_iter job_data))
    ++ omap f [PickleDump (OUT_DIR job_data +:+ "/agent_final.pickle");
               PickleDump (OUT_DIR job_data +:+ "/policy_final.pickle")].
Proof.
  intros Hlog. unfold Train.train.
  destruct (iterations es job_data _ st) as [st1| |] eqn:E;
    cbn [andthen]; [|done..].
  intros [= <-]. cbn [trace emit]. rewrite omap_app.
  rewrite (omap_actions f (trace st1)) by done.
  rewrite (iterations_actions es _ st st1 E), omap_app, omap_mjoin_fmap.
  by rewrite <- omap_actions, <- app_assoc.
Qed.

(** A view that sees neither the logger nor the pickled files. *)
Lemma train_view {A : Type} (f : event → option A)
    (es : list path → option V) (st st' : state) :
  (∀ key, f (LogKv key) = None) → (∀ file, f (PickleDump file) = None) →
  train es job_data st = Finished st' →
  omap f (trace st')
  = omap f (trace st)
    ++ mjoin ((λ i, omap f (iteration_actions job_data i))
                <$> range (num_iter job_data)).
Proof.
  intros Hlog Hdump Hrun. rewrite (train_view_all f es st st' Hlog Hrun).
  cbn. by rewrite !Hdump, app_nil_r.
Qed.

Lemma mjoin_fmap_ext {A B : Type} (f g : A → list B) (l : list A) :
  (∀ a, f a = g a) → mjoin (f <$> l) = mjoin (g <$> l).
Proof.
  intros Hfg. f_equal. apply list_fmap_ext. intros _ a _. apply Hfg.
Qed.

Lemma model_actions_quiet {A : Type} (f : event → option A) (i : nat) :
  (∀ j, f (ComputeLoss j) = None) → (∀ j, f (FitDynamics j) = None) →
  (∀ j, f (FitReward j) = None) →
  omap f (model_actions job_data i) = [].
Proof.
  intros H1 H2 H3. unfold model_actions.
  destruct (learn_reward job_data); cbn; by rewrite ?H1, ?H2, ?H3.
Qed.

(** X18.  What a completed run has asked of the real environment.
    The sampler was called once per outer iteration, for
    [init_samples] samples in iteration 0 and [iter_samples] in every
    later one, with base seed [SEED + outer_iter]; evaluation rollouts
    were run once per iteration, for [eval_rollouts] episodes, when
    [eval_rollouts] is positive, and never otherwise. *)
Theorem run_sampling_schedule (es : list path → option V) (st st' : state) :
  train es job_data st = Finished st' →
  sampling (trace st')
  = sampling (trace st)
    ++ ((λ i, (if i =? 0 then init_samples job_data else iter_samples job_data,
               SEED job_data + i)) <$> range (num_iter job_data))
  ∧ evaluations (trace st')
    = evaluations (trace st)
      ++ (if eval_rollouts job_data >? 0
          then (λ _, eval_rollouts job_data) <$> range (num_iter job_data)
          else []).
Proof.
  intros Hrun. split.
  - unfold sampling. rewrite (train_view _ es st st'); [|done..].
    f_equal. etrans; [|apply mjoin_singletons].
    apply mjoin_fmap_ext. intros i. rewrite iteration_view.
    rewrite (mjoin_all_nil _ _) by (intros j; by apply model_actions_quiet).
    rewrite (omap_all_none (_ ∘ TrainStep)) by done.
    unfold checkpoint_actions.
    destruct (refresh_fit job_data), (refresh_policy job_data) as [[|]|],
      (eval_rollouts job_data >? 0), ((i >? 0) && _); done.
  - unfold evaluations. rewrite (train_view _ es st st'); [|done..].
    f_equal.
    rewrite (mjoin_fmap_ext _ (λ _, if eval_rollouts job_data >? 0
                                    then [eval_rollouts job_data] else [])).
    + destruct (eval_rollouts job_data >? 0).
      * apply mjoin_singletons.
      * by apply mjoin_all_nil.
    + intros i. rewrite iteration_view.
      rewrite (mjoin_all_nil _ _) by (intros j; by apply model_actions_quiet).
      rewrite (omap_all_none (_ ∘ TrainStep)) by done.
      unfold checkpoint_actions.
      destruct (refresh_fit job_data), (refresh_policy job_data) as [[|]|],
        (eval_rollouts job_data >? 0), ((i >? 0) && _); done.
Qed.

(** X19.  What a completed run has done on the learned models.
    Every outer iteration fitted each of the [num_models] dynamics
    models once, in order, then took [inner_steps] NPG steps numbered
    from 0, and saved the log once: [num_iter] saved logs in all. *)
Theorem run_update_schedule (es : list path → option V) (st st' : state) :
  train es job_data st = Finished st' →
  fitted (trace st')
  = fitted (trace st)
    ++ mjoin ((λ _, seq 0 (Z.to_nat (num_models job_data)))
                <$> range (num_iter job_data))
  ∧ train_steps (trace st')
    = train_steps (trace st)
      ++ mjoin ((λ _, range (inner_steps job_data))
                  <$> range (num_iter job_data))
  ∧ saved_logs (trace st')
    = (saved_logs (trace st) + Z.to_nat (num_iter job_data))%nat.
Proof.
  intros Hrun. split; [|split].
  - unfold fitted. rewrite (train_view _ es st st'); [|done..].
    f_equal. apply mjoin_fmap_ext. intros i. rewrite iteration_view.
    rewrite (omap_all_none (_ ∘ TrainStep)) by done.
    rewrite (mjoin_fmap_ext _ (λ j, [j]))
      by (intros j; unfold model_actions; by destruct (learn_reward job_data)).
    rewrite mjoin_singletons, list_fmap_id.
    unfold checkpoint_actions.
    destruct (refresh_fit job_data), (refresh_policy job_data) as [[|]|],
      (eval_rollouts job_data >? 0), ((i >? 0) && _); cbn;
      by rewrite ?app_nil_r.
  - unfold train_steps. rewrite (train_view _ es st st'); [|done..].
    f_equal. apply mjoin_fmap_ext. intros i. rewrite iteration_view.
    rewrite (mjoin_all_nil _ _) by (intros j; by apply model_actions_quiet).
    change (omap (_ ∘ TrainStep) (range (inner_steps job_data)))
      with (omap Some (range (inner_steps job_data))).
    rewrite omap_all_some.
    unfold checkpoint_actions.
    destruct (refresh_fit job_data), (refresh_policy job_data) as [[|]|],
      (eval_rollouts job_data >? 0), ((i >? 0) && _); cbn;
      by rewrite ?app_nil_r.
  - unfold saved_logs. rewrite (train_view _ es st st'); [|done..].
    rewrite length_app. f_equal.
    rewrite (mjoin_fmap_ext _ (λ _, [()])).
    + rewrite mjoin_const_length. unfold range.
      rewrite length_fmap, length_seq. simpl. lia.
    + intros i. rewrite iteration_view.
      rewrite (mjoin_all_nil _ _) by (intros j; by apply model_actions_quiet).
      rewrite (omap_all_none (_ ∘ TrainStep)) by done.
      unfold checkpoint_actions.
      destruct (refresh_fit job_data), (refresh_policy job_data) as [[|]|],
        (eval_rollouts job_data >? 0), ((i >? 0) && _); done.
Qed.

(** X20.  Device moves and pickled files of a completed run, in
    order.  A periodic checkpoint (iterations [i > 0] with
    [i % save_freq == 0]) moves the agent to the CPU, pickles agent and
    policy, and moves the agent back to [job_data['device']]; the final
    save pickles agent and policy where the agent is, without a move to
    the CPU before it. *)
Theorem checkpoint_device_moves (es : list path → option V) (st st' : state) :
  train es job_data st = Finished st' →
  storage_events (trace st')
  = storage_events (trace st)
    ++ mjoin ((λ i, if (i >? 0) && (i `mod` save_freq job_data =? 0)
                    then [inl "cpu";
                          inr (OUT_DIR job_data +:+ "/agent_" +:+ pretty i
                               +:+ ".pickle");
                          inr (OUT_DIR job_data +:+ "/policy_" +:+ pretty i
                               +:+ ".pickle");
                          inl (device job_data)]
                    else [])
                <$> range (num_iter job_data))
    ++ [inr (OUT_DIR job_data +:+ "/agent_final.pickle");
        inr (OUT_DIR job_data +:+ "/policy_final.pickle")].
Proof.
  intros Hrun. unfold storage_events.
  rewrite (train_view_all _ es st st'); [|done..].
  f_equal. f_equal. apply mjoin_fmap_ext. intros i. rewrite iteration_view.
  rewrite (mjoin_all_nil _ _) by (intros j; by apply model_actions_quiet).
  rewrite (omap_all_none (_ ∘ TrainStep)) by done.
  unfold checkpoint_actions.
  destruct (refresh_fit job_data), (refresh_policy job_data) as [[|]|],
    (eval_rollouts job_data >? 0), ((i >? 0) && _); done.
Qed.


End LoopMore.

End TrainMore.

(** ** The extra properties on the small instance *)

Module ToyMore.
Import Train Toy Run ToyRuns.
Open Scope Z_scope.

Lemma preamble_outcome_witness :
  preamble config_empty = inl (KeyError "env_name")
  ∧ preamble config_buffer
    = inr (<["base_seed" := PInt 500]> (delete "seed" (config_buffer ∪ defaults)),
           PStr "mjrl_point_mass-v0", PInt 500,
           [JsonDump (config_buffer ∪ defaults)])
  ∧ (config_buffer ∪ defaults) !! "start_state" = Some (PStr "buffer")
  ∧ (config_buffer ∪ defaults) !! "save_freq" = Some (PInt 10).
Proof.
  destruct (TrainMore.preamble_outcome config_empty) as (Hmissing & _).
  destruct (TrainMore.preamble_outcome config_buffer) as (_ & _ & Hok).
  destruct (Hok (PStr "mjrl_point_mass-v0") (PInt 500))
    as (Hpre & Hkeep & Hfill & _); [reflexivity..|].
  split; [apply Hmissing; reflexivity|]. split; [exact Hpre|].
  split; [apply Hkeep; reflexivity|].
  rewrite Hfill; reflexivity.
Defined.

Lemma collect_postcondition_witness :
  paths collected ≠ []
  ∧ ([path2] ≠ [] → last (paths collected) = last [path2])
  ∧ iter_paths collected = [path2]
  ∧ init_states_buffer collected
    = init_states_buffer start ++ first_observations [path2]
  ∧ length (init_states_buffer collected)
    = (length (init_states_buffer start) + length [path2])%nat
  ∧ (Forall (λ p, observations p ≠ []) (paths start) →
     Forall (λ p, observations p ≠ []) (paths collected)).
Proof.
  apply (TrainMore.collect_postcondition Toy.sample_data_batch Toy.replay_store
           job5 0 start collected [path2] 1%nat).
  - reflexivity.
  - reflexivity.
Defined.

Lemma collect_index_error_witness :
  ∃ st', Train.collect sample_with_empty Toy.replay_store job5 0 start
         = Failed IndexError st'
    ∧ paths st' = paths start ++ [path2] ++ [path0]
    ∧ init_states_buffer st'
      = init_states_buffer start ++ first_observations [path2]
    ∧ world st' = 1%nat
    ∧ ReplayStore ∉ drop (length (trace start)) (trace st').
Proof.
  apply (TrainMore.collect_index_error sample_with_empty Toy.replay_store job5 0
           start [path2] [path2] path0 1%nat).
  - reflexivity.
  - by repeat constructor.
  - reflexivity.
Defined.

Lemma collect_negative_ceiling_witness :
  ∃ st', collect job_negative 0 window = Diverged st'
    ∧ ReplayStore ∉ drop (length (trace window)) (trace st').
Proof.
  apply (TrainMore.collect_negative_ceiling Toy.sample_data_batch
           Toy.replay_store job_negative 0 window [path2] 1%nat).
  - reflexivity.
  - reflexivity.
  - by repeat constructor.
  - by repeat constructor.
Defined.

Lemma collect_oversized_path_witness :
  ∃ st', collect job_tight 0 window = Failed ValueError st'
    ∧ paths st' = []
    ∧ init_states_buffer st'
      = init_states_buffer window ++ first_observations ([] ++ [path2])
    ∧ ReplayStore ∉ drop (length (trace window)) (trace st').
Proof.
  apply (TrainMore.collect_oversized_path Toy.sample_data_batch
           Toy.replay_store job_tight 0 window [] path2 1%nat).
  - reflexivity.
  - simpl. lia.
  - simpl. lia.
  - by repeat constructor.
  - by repeat constructor.
Defined.

Lemma run_sampling_schedule_witness :
  sampling (trace completed)
  = sampling (trace start)
    ++ ((λ i, (if i =? 0 then init_samples job5 else iter_samples job5,
               SEED job5 + i)) <$> range (num_iter job5))
  ∧ evaluations (trace completed)
    = evaluations (trace start)
      ++ (if eval_rollouts job5 >? 0
          then (λ _, eval_rollouts job5) <$> range (num_iter job5)
          else []).
Proof.
  apply (TrainMore.run_sampling_schedule Toy.sample_data_batch Toy.replay_store
           Toy.new_models Toy.compute_loss Toy.fit_dynamics Toy.fit_reward
           Toy.new_policy Toy.train_step Toy.evaluate_policy job5 raising
           start completed).
  vm_compute. reflexivity.
Defined.

Lemma run_update_schedule_witness :
  fitted (trace completed)
  = fitted (trace start)
    ++ mjoin ((λ _, seq 0 (Z.to_nat (num_models job5))) <$> range (num_iter job5))
  ∧ train_steps (trace completed)
    = train_steps (trace start)
      ++ mjoin ((λ _, range (inner_steps job5)) <$> range (num_iter job5))
  ∧ saved_logs (trace completed)
    = (saved_logs (trace start) + Z.to_nat (num_iter job5))%nat.
Proof.
  apply (TrainMore.run_update_schedule Toy.sample_data_batch Toy.replay_store
           Toy.new_models Toy.compute_loss Toy.fit_dynamics Toy.fit_reward
           Toy.new_policy Toy.train_step Toy.evaluate_policy job5 raising
           start completed).
  vm_compute. reflexivity.
Defined.

Lemma checkpoint_device_moves_witness :
  storage_events (trace completed)
  = storage_events (trace start)
    ++ mjoin ((λ i, if (i >? 0) && (i `mod` save_freq job5 =? 0)
                    then [inl "cpu";
                          inr (OUT_DIR job5 +:+ "/agent_" +:+ pretty i
                               +:+ ".pickle");
                          inr (OUT_DIR job5 +:+ "/policy_" +:+ pretty i
                               +:+ ".pickle");
                          inl (device job5)]
                    else [])
                <$> range (num_iter job5))
    ++ [inr (OUT_DIR job5 +:+ "/agent_final.pickle");
        inr (OUT_DIR job5 +:+ "/policy_final.pickle")].
Proof.
  apply (TrainMore.checkpoint_device_moves Toy.sample_data_batch Toy.replay_store
           Toy.new_models Toy.compute_loss Toy.fit_dynamics Toy.fit_reward
           Toy.new_policy Toy.train_step Toy.evaluate_policy job5 raising
           start completed).
  vm_compute. reflexivity.
Defined.

Lemma toy_good_sampler_nosave : good_sampler Toy.sample_data_batch job_nosave.
Proof.
  intros num_samples base_seed w. simpl. split; [done|]. split.
  - by repeat constructor.
  - unfold buffer_size. simpl. lia.
Qed.


End ToyMore.
